(** * checker: cross-reference validation for an RST corpus

    A shallow embedding of the planning and validation pipeline of
    [cmd/root.go] (the body of [rootCmd.Run], [contains], and the closures it
    puts on the work stack), together with models of the extraction and
    inventory-decoding operations exercised by the test files.

    Go strings are byte sequences: they are modelled by [string] (a sequence
    of 8-bit [ascii]).  Go maps are [gmap]s; a [range] over a map visits every
    entry once, in an order the language leaves open, which is modelled by an
    enumeration function that is only known to be a permutation of the
    entries. *)

From Stdlib Require Import Ascii String.
From stdpp Require Import base option list gmap sets strings.

(** ** The [strings] package of the Go library, as far as the code uses it *)

Module strings.

(** [strings.HasPrefix s prefix] *)
Fixpoint HasPrefix (s prefix : string) {struct prefix} : bool :=
  match prefix, s with
  | EmptyString, _ => true
  | String _ _, EmptyString => false
  | String p prefix', String c s' =>
      if Ascii.eqb c p then HasPrefix s' prefix' else false
  end.

(** [strings.Contains s substr]: [substr] occurs at some offset of [s]. *)
Fixpoint Contains (s substr : string) : bool :=
  if HasPrefix s substr then true
  else match s with
       | EmptyString => false
       | String _ s' => Contains s' substr
       end.

Fixpoint drop (n : nat) (s : string) : string :=
  match n, s with
  | O, _ => s
  | S _, EmptyString => EmptyString
  | S n', String _ s' => drop n' s'
  end.

(** [strings.TrimPrefix s prefix] *)
Definition TrimPrefix (s prefix : string) : string :=
  if HasPrefix s prefix then drop (String.length prefix) s else s.

End strings.

(** ** The value types of package [rst] used by the command *)

Module RstRole.
Record t := mk { Target : string; RoleType : string; Name : string }.

#[global] Instance eq_dec : EqDecision t.
Proof. solve_decision. Defined.

#[global] Instance countable : Countable t.
Proof.
  refine (inj_countable' (λ r, (Target r, RoleType r, Name r))
                         (λ p, mk p.1.1 p.1.2 p.2) _).
  by intros [].
Defined.
End RstRole.

Module RstConstant.
Record t := mk { Target : string; Name : string }.

#[global] Instance eq_dec : EqDecision t.
Proof. solve_decision. Defined.

#[global] Instance countable : Countable t.
Proof.
  refine (inj_countable' (λ c, (Target c, Name c)) (λ p, mk p.1 p.2) _).
  by intros [].
Defined.
End RstConstant.

Module Ref.
Record t := mk { Target : string; Type_ : string }.

#[global] Instance eq_dec : EqDecision t.
Proof. solve_decision. Defined.
End Ref.

(** [type RstHTTPLink string] *)
Definition RstHTTPLink := string.

(** The role catalog read from rstspec.toml ([sources.NewRoleMap]). *)
Module RoleMap.
Record t := mk {
  Roles : gmap string string;
  RawRoles : gset string;
  RstObjects : gset string
}.
End RoleMap.

(** ** [contains] (cmd/root.go) *)

Fixpoint contains (s : list string) (e : string) : bool :=
  match s with
  | [] => false
  | a :: s' => if strings.Contains a e then true else contains s' e
  end.

(** ** Iteration over Go maps

    A [for k, v := range m] loop visits every entry of [m] exactly once; the
    order is unspecified.  An iteration order is any enumeration of the
    entries that is a permutation of [map_to_list]. *)

Record MapRange := {
  range : ∀ K `{Countable K} V, gmap K V → list (K * V);
  range_perm : ∀ K `{Countable K} V (m : gmap K V),
      range K V m ≡ₚ map_to_list m
}.
Arguments range _ {K _ _ V} m.

(** The order in which stdpp enumerates a map is one such iteration order. *)
Definition listOrder : MapRange :=
  {| range := λ K _ _ V m, map_to_list m;
     range_perm := λ K _ _ V m, reflexivity (map_to_list m) |}.

(** ** Diagnostics

    Every diagnostic is built by [fmt.Sprintf] from a fixed format and the
    values below; a constructor stands for the format, its arguments for the
    formatted values. *)

Inductive Diag :=
| NotDefinedInConfig (con : RstConstant.t)
    (* "%s is not defined in config" *)
| NotValidRef (filename : string) (role : RstRole.t)
    (* "in %s: %+v is not a valid ref" *)
| NotValidFile (filename : string) (role : RstRole.t)
    (* "in %s: %s is not a valid file found in this docset" *)
| NotValidRole (filename : string) (role : RstRole.t)
    (* "in %s: %s is not a valid role" *)
| UrlNotValid (filename url : string) (role : RstRole.t) (resp : string)
    (* "in %s: interpeted url %s from  %+v was not valid. Got response %s" *)
| LinkNotValid (filename : string) (link : RstHTTPLink) (resp : string).
    (* "in %s: %s is not a valid http link. Got response %s" *)

#[global] Instance Diag_eq_dec : EqDecision Diag.
Proof. solve_decision. Defined.

(** ** The claimed-URL set and the work stack

    [checkedUrls] is a [sync.Map]: its keys are interface values, so a key
    stored from a [string] and a key stored from an [rst.RstHTTPLink] are
    different keys even when they hold the same text. *)

Inductive Key :=
| KeyString (url : string)
| KeyLink (link : RstHTTPLink).

#[global] Instance Key_eq_dec : EqDecision Key.
Proof. solve_decision. Defined.

#[global] Instance Key_countable : Countable Key.
Proof.
  refine (inj_countable'
            (λ k, match k with KeyString s => inl s | KeyLink l => inr l end)
            (λ x, match x with inl s => KeyString s | inr l => KeyLink l end) _).
  by intros [].
Defined.

(** The closures appended to [workStack]: the probing closure of a templated
    role (line 231), the probing closure of a link (line 254) and the empty
    closure [func() {}] (lines 239 and 262), each with the variables it
    captures. *)
Inductive Job :=
| JobRole (url filename : string) (role : RstRole.t)
| JobLink (link : RstHTTPLink) (filename : string)
| JobNoop.

#[global] Instance Job_eq_dec : EqDecision Job.
Proof. solve_decision. Defined.

(** State shared by the closures while the pool runs them. *)
Record Exec := mkExec {
  checkedUrls : gmap Key bool;
  probes : list string;        (* the calls of [utils.IsReachable], in order *)
  diagnostics : list Diag      (* what the aggregator has appended *)
}.

(** What the command reads before it plans: flags, configuration, the
    gathered indices and the role catalog. *)
Record Inputs := mkInputs {
  refs : bool;
  docs : bool;
  changes : list string;
  files : list string;
  Constants : gmap string string;              (* projectSnooty.Constants *)
  sphinxMap : gmap string Ref.t;
  allConstants : gmap RstConstant.t string;
  allRoleTargets : gmap RstRole.t string;      (* after Union, ConvertConstants *)
  allHTTPLinks : gmap RstHTTPLink string;
  rstSpecRoles : RoleMap.t
}.

(** ** The body of [rootCmd.Run], from line 157 on *)

Section Run.

Variable order : MapRange.
(** [fmt.Sprintf(format, arg)] with one argument *)
Variable Sprintf : string → string → string.
(** [utils.IsReachable(url)]: the response text and whether it was usable *)
Variable IsReachable : string → string * bool.
(** the method [IsHTTPLink] of [rst.RstConstant] *)
Variable IsHTTPLink : RstConstant.t → bool.
(** the [ok] of [allLocalRefs.Get(&role)] *)
Variable allLocalRefs_Get : RstRole.t → bool.

Variable inp : Inputs.

(** One iteration of the loop over [allConstants] (lines 157-165); the state
    is what the loop has sent to [diags] and the current [allHTTPLinks]. *)
Definition constantStep (st : list Diag * gmap RstHTTPLink string)
    (e : RstConstant.t * string) : list Diag * gmap RstHTTPLink string :=
  let con := e.1 in
  let filename := e.2 in
  let diags :=
    match Constants inp !! RstConstant.Name con with
    | Some _ => st.1
    | None => st.1 ++ [NotDefinedInConfig con]
    end in
  let testCon :=
    {| RstConstant.Name := RstConstant.Name con;
       RstConstant.Target :=
         default EmptyString (Constants inp !! filename)
         +:+ RstConstant.Name con |} in
  if IsHTTPLink testCon
  then (diags, <[RstConstant.Target testCon := filename]> st.2)
  else (diags, st.2).

Definition constantsLoop : list Diag * gmap RstHTTPLink string :=
  foldl constantStep ([], allHTTPLinks inp) (range order (allConstants inp)).

(** Lines 171-173: an empty changeset stands for every file. *)
Definition activeChanges : list string :=
  match changes inp with
  | [] => files inp
  | _ :: _ => changes inp
  end.

(** The guard at the head of both planning loops (lines 177 and 249). *)
Definition inScope (filename : string) : bool :=
  contains activeChanges (strings.TrimPrefix filename "/").

(** The test made under [case "ref"], ["py:meth"] and ["py:class"]. *)
Definition refCheck (role : RstRole.t) (filename : string) : list Diag :=
  match sphinxMap inp !! RstRole.Target role with
  | Some _ => []
  | None =>
      if allLocalRefs_Get role then [] else [NotValidRef filename role]
  end.

(** [workFunc] of the role loop (lines 228-242), called while planning. *)
Definition roleWorkFunc (checked : gmap Key bool) (role : RstRole.t)
    (filename : string) : Job :=
  let format :=
    default EmptyString
      (RoleMap.Roles (rstSpecRoles inp) !! RstRole.Name role) in
  let url := Sprintf format (RstRole.Target role) in
  match checked !! KeyString url with
  | None => JobRole url filename role
  | Some _ => JobNoop
  end.

(** [workFunc] of the link loop (lines 252-264). *)
Definition linkWorkFunc (checked : gmap Key bool) (link : RstHTTPLink)
    (filename : string) : Job :=
  match checked !! KeyLink link with
  | None => JobLink link filename
  | Some _ => JobNoop
  end.

(** The [switch role.Name] of lines 181-244: the diagnostics sent and the
    closures appended for one role.  A Go [case] does not fall through: when
    the flag of a case is off, its body ends and so does the switch. *)
Definition roleSwitch (checked : gmap Key bool) (role : RstRole.t)
    (filename : string) : list Diag * list Job :=
  let name := RstRole.Name role in
  if String.eqb name "guilabel" then ([], [])
  else if String.eqb name "ref" then
    if refs inp then (refCheck role filename, []) else ([], [])
  else if String.eqb name "doc" then
    if docs inp then
      (if negb (contains (files inp) filename)
       then [NotValidFile filename role] else [], [])
    else ([], [])
  else if String.eqb name "py:meth" then
    if refs inp then (refCheck role filename, []) else ([], [])
  else if String.eqb name "py:class" then
    if refs inp then (refCheck role filename, []) else ([], [])
  else
    match RoleMap.Roles (rstSpecRoles inp) !! name with
    | None =>
        (if decide (name ∈ RoleMap.RawRoles (rstSpecRoles inp)) then []
         else if decide (name ∈ RoleMap.RstObjects (rstSpecRoles inp)) then []
         else [NotValidRole filename role], [])
    | Some _ => ([], [roleWorkFunc checked role filename])
    end.

(** One iteration of the loop over [allRoleTargets] (lines 175-245). *)
Definition roleStep (checked : gmap Key bool) (e : RstRole.t * string)
    : list Diag * list Job :=
  if negb (inScope e.2) then ([], []) else roleSwitch checked e.1 e.2.

(** One iteration of the loop over [allHTTPLinks] (lines 247-267). *)
Definition linkStep (checked : gmap Key bool) (e : RstHTTPLink * string)
    : list Job :=
  if negb (inScope e.2) then [] else [linkWorkFunc checked e.1 e.2].

(** A closure run by a worker. *)
Definition runJob (st : Exec) (j : Job) : Exec :=
  match j with
  | JobRole url filename role =>
      let r := IsReachable url in
      {| checkedUrls := <[KeyString url := true]> (checkedUrls st);
         probes := probes st ++ [url];
         diagnostics :=
           diagnostics st ++
           (if r.2 then [] else [UrlNotValid filename url role r.1]) |}
  | JobLink link filename =>
      let r := IsReachable link in
      {| checkedUrls := <[KeyLink link := true]> (checkedUrls st);
         probes := probes st ++ [link];
         diagnostics :=
           diagnostics st ++
           (if r.2 then [] else [LinkNotValid filename link r.1]) |}
  | JobNoop => st
  end.

(** The planning phase: everything up to line 267.  [checkedUrls] is created
    empty on line 167 and nothing is stored in it before a closure runs. *)
Record Plan := mkPlan {
  planDiags : list Diag;
  workStack : list Job
}.

Definition rolesLoop (checked : gmap Key bool) : list Diag * list Job :=
  foldl (λ acc e, let r := roleStep checked e in (acc.1 ++ r.1, acc.2 ++ r.2))
        ([], []) (range order (allRoleTargets inp)).

Definition linksLoop (checked : gmap Key bool)
    (links : gmap RstHTTPLink string) : list Job :=
  foldl (λ acc e, acc ++ linkStep checked e) [] (range order links).

Definition plan : Plan :=
  let c := constantsLoop in
  let r := rolesLoop ∅ in
  {| planDiags := c.1 ++ r.1;
     workStack := r.2 ++ linksLoop ∅ c.2 |}.

(** The pool, run by one worker after another: the closures are taken from
    [workStack] in order (lines 290-295). *)
Definition runPool (p : Plan) : Exec :=
  foldl runJob {| checkedUrls := ∅; probes := []; diagnostics := planDiags p |}
        (workStack p).

Definition Run : Exec := runPool plan.

(** What one iteration of the loop over [allConstants] sends to [diags]. *)
Definition constantDiag (e : RstConstant.t * string) : list Diag :=
  match Constants inp !! RstConstant.Name e.1 with
  | Some _ => []
  | None => [NotDefinedInConfig e.1]
  end.

(** The calls of [utils.IsReachable] a closure makes, and what it sends to
    [diags]. *)
Definition jobProbes (j : Job) : list string :=
  match j with
  | JobRole url _ _ => [url]
  | JobLink link _ => [link]
  | JobNoop => []
  end.

Definition jobDiags (j : Job) : list Diag :=
  match j with
  | JobRole url filename role =>
      let r := IsReachable url in
      if r.2 then [] else [UrlNotValid filename url role r.1]
  | JobLink link filename =>
      let r := IsReachable link in
      if r.2 then [] else [LinkNotValid filename link r.1]
  | JobNoop => []
  end.

End Run.

(** The number of times [d] occurs among the diagnostics [l]. *)
Definition occurrences (d : Diag) (l : list Diag) : nat :=
  length (filter (λ x, x = d) l).

(** ** Concrete stand-ins for the library calls, used to run the model *)

(** [fmt.Sprintf(format, arg)] for one string operand and formats whose only
    verbs are [%s] and [%%]: the first [%s] prints the operand, a later one
    has no operand left, and an operand that no verb used is reported. *)
Fixpoint sprintfGo (used : bool) (format arg : string) : string :=
  match format with
  | EmptyString =>
      if used then EmptyString else "%!(EXTRA string=" +:+ arg +:+ ")"
  | String "%" (String "s" rest) =>
      (if used then "%!s(MISSING)" else arg) +:+ sprintfGo true rest arg
  | String "%" (String "%" rest) => String "%" (sprintfGo used rest arg)
  | String c rest => String c (sprintfGo used rest arg)
  end.

Definition Sprintf1 (format arg : string) : string :=
  sprintfGo false format arg.

(** ** Package [rst]: the extraction operations

    The file that defines them is not among the sources; only their tests
    are.  The operations below are written from the description of the six
    constructs, as scanners over the input text, and agree with every case
    of the test tables that does not need the embedded fixture file. *)

Module RefTarget.
Record t := mk { Name : string }.
#[global] Instance eq_dec : EqDecision t.
Proof. solve_decision. Defined.
End RefTarget.

Module RstDirective.
Record t := mk { Name : string; Target : string }.
#[global] Instance eq_dec : EqDecision t.
Proof. solve_decision. Defined.
End RstDirective.

Module SharedInclude.
Record t := mk { Path : string }.
#[global] Instance eq_dec : EqDecision t.
Proof. solve_decision. Defined.
End SharedInclude.

Module rst.

(** *** Characters and pieces of text *)

Definition between (lo hi c : ascii) : bool :=
  (nat_of_ascii lo <=? nat_of_ascii c) && (nat_of_ascii c <=? nat_of_ascii hi).

Definition isLetter (c : ascii) : bool :=
  between "a" "z" c || between "A" "Z" c.

Definition isDigit (c : ascii) : bool := between "0" "9" c.

(** letters, digits, hyphens: the token of a directive name *)
Definition isDirectiveChar (c : ascii) : bool :=
  isLetter c || isDigit c || Ascii.eqb c "-".

(** letters, digits, periods, colons, hyphens: the token of a role name *)
Definition isRoleChar (c : ascii) : bool :=
  isLetter c || isDigit c || Ascii.eqb c "." || Ascii.eqb c ":" ||
  Ascii.eqb c "-".

Fixpoint dropWhile (p : ascii → bool) (s : string) : string :=
  match s with
  | EmptyString => EmptyString
  | String c s' => if p c then dropWhile p s' else s
  end.

Fixpoint takeWhile (p : ascii → bool) (s : string) : string :=
  match s with
  | EmptyString => EmptyString
  | String c s' => if p c then String c (takeWhile p s') else EmptyString
  end.

(** [strings.TrimSpace] *)
Definition TrimSpace (s : string) : string :=
  String.rev (dropWhile Ascii.is_space
                (String.rev (dropWhile Ascii.is_space s))).

(** [strings.Split(s, sep)] for a one-byte separator: never empty. *)
Fixpoint Split (sep : ascii) (s : string) : list string :=
  match s with
  | EmptyString => [EmptyString]
  | String c s' =>
      if Ascii.eqb c sep then EmptyString :: Split sep s'
      else match Split sep s' with
           | [] => [String c EmptyString]
           | h :: t => String c h :: t
           end
  end.

(** The text before the first [c] and the text after it. *)
Fixpoint cut (c : ascii) (s : string) : option (string * string) :=
  match s with
  | EmptyString => None
  | String a s' =>
      if Ascii.eqb a c then Some (EmptyString, s')
      else match cut c s' with
           | Some (l, r) => Some (String a l, r)
           | None => None
           end
  end.

(** The text after the first occurrence of [sub]. *)
Fixpoint after (sub s : string) : option string :=
  if strings.HasPrefix s sub then Some (strings.drop (String.length sub) s)
  else match s with
       | EmptyString => None
       | String _ s' => after sub s'
       end.

(** The text before the first occurrence of [sub] and the text after it. *)
Fixpoint cutString (sub s : string) : option (string * string) :=
  if strings.HasPrefix s sub
  then Some (EmptyString, strings.drop (String.length sub) s)
  else match s with
       | EmptyString => None
       | String a s' =>
           match cutString sub s' with
           | Some (l, r) => Some (String a l, r)
           | None => None
           end
       end.

(** *** Local anchor targets: [.. _label:] at the head of a line *)

Definition stripListMarker (s : string) : string :=
  if strings.HasPrefix s "- "
  then dropWhile Ascii.is_space (strings.drop 2 s) else s.

Definition localRefOfLine (line : string) : option RefTarget.t :=
  let l := stripListMarker (dropWhile Ascii.is_space line) in
  if strings.HasPrefix l ".." then
    let l1 := strings.drop 2 l in
    match l1 with
    | String c _ =>
        if Ascii.is_space c then
          match dropWhile Ascii.is_space l1 with
          | String "_" l2 =>
              match cut ":" (dropWhile Ascii.is_space l2) with
              | Some (String c0 label, _) =>
                  Some (RefTarget.mk (String c0 label))
              | _ => None
              end
          | _ => None
          end
        else None
    | EmptyString => None
    end
  else None.

(** Modelled from the spec: [rst.ParseForLocalRefs], which is not among the
    sources.  A line holds an anchor when, behind indentation and an
    optional list marker, it reads two dots, white space, an underscore and
    a label that is not empty and ends at the first colon; white space
    around the underscore is passed over (the test table has a row with two
    spaces before it). *)
Definition ParseForLocalRefs (input : string) : list RefTarget.t :=
  omap localRefOfLine (Split "010" input).

(** *** Directives: [.. name:: argument] *)

Definition directiveOfLine (line : string) : option RstDirective.t :=
  let l := dropWhile Ascii.is_space line in
  if strings.HasPrefix l ".." then
    let l1 := strings.drop 2 l in
    match l1 with
    | String c _ =>
        if Ascii.is_space c then
          let l2 := dropWhile Ascii.is_space l1 in
          let name := takeWhile isDirectiveChar l2 in
          let l3 := dropWhile isDirectiveChar l2 in
          match name, strings.HasPrefix l3 "::" with
          | String _ _, true =>
              match TrimSpace (strings.drop 2 l3) with
              | EmptyString => None
              | arg => Some (RstDirective.mk name arg)
              end
          | _, _ => None
          end
        else None
    | EmptyString => None
    end
  else None.

(** Modelled from the spec: [rst.ParseForDirectives], which is not among the
    sources.  A line holds a directive when it reads two dots, white space,
    a name of letters, digits and hyphens, two colons and an argument that
    is not empty once trimmed. *)
Definition ParseForDirectives (input : string) : list RstDirective.t :=
  omap directiveOfLine (Split "010" input).

(** *** Shared includes: the directives named [sharedinclude] *)

Definition sharedIncludeOf (d : RstDirective.t) : option SharedInclude.t :=
  if String.eqb (RstDirective.Name d) "sharedinclude"
  then Some (SharedInclude.mk (RstDirective.Target d)) else None.

(** Modelled from the spec: [rst.ParseForSharedIncludes], which is not among
    the sources: the directives named [sharedinclude], their argument as
    path. *)
Definition ParseForSharedIncludes (input : string) : list SharedInclude.t :=
  omap sharedIncludeOf (ParseForDirectives input).

(** *** Roles: [:name:] immediately followed by a backtick-delimited span *)

(** A span in backticks begins at the end of one backtick-separated piece of
    the input.  The piece names a role when it ends with [:name:], the name
    being a non-empty token of role characters: of the longest run of role
    characters that ends the piece, the name is what lies between the first
    colon and the last character, which must be a colon. *)
Definition trailingRun (piece : string) : string :=
  String.rev (takeWhile isRoleChar (String.rev piece)).

Definition roleNameBefore (piece : string) : option string :=
  match cut ":" (trailingRun piece) with
  | Some (_, rest) =>
      match String.rev rest with
      | String ":" (String c revName) => Some (String.rev (String c revName))
      | _ => None
      end
  | None => None
  end.

(** The target of a span: the trailer in angle brackets when the span ends
    with one, else the whole span; trimmed in both cases. *)
Definition roleTarget (span : string) : string :=
  let t := TrimSpace span in
  match String.rev t with
  | String ">" r =>
      match cut "<" r with
      | Some (revTarget, _) => TrimSpace (String.rev revTarget)
      | None => t
      end
  | _ => t
  end.

Definition mkRole (name span : string) : RstRole.t :=
  {| RstRole.Target := roleTarget span;
     RstRole.RoleType := if String.eqb name "ref" then "ref" else "role";
     RstRole.Name := name |}.

(** Over the pieces between backticks: [piece :: span :: more] is a role when
    [piece] ends with a role name and [span] is closed by a backtick, that
    is, [more] is not empty; the scan then goes on behind the closing
    backtick. *)
Fixpoint rolesOfPieces (pieces : list string) : list RstRole.t :=
  match pieces with
  | piece :: tl =>
      match tl with
      | span :: more =>
          match more, roleNameBefore piece with
          | _ :: _, Some name => mkRole name span :: rolesOfPieces more
          | _, _ => rolesOfPieces tl
          end
      | [] => []
      end
  | [] => []
  end.

(** Modelled from the spec: [rst.ParseForRoles], which is not among the
    sources.  The input is cut at its backticks and the pieces are read
    from left to right. *)
Definition ParseForRoles (input : string) : list RstRole.t :=
  rolesOfPieces (Split "`" input).

(** *** Constant-backed links: [`text <{+NAME+}SUFFIX>`__] *)

Definition constantOfSpan (span : string) : option RstConstant.t :=
  match after "<{+" span with
  | Some r =>
      match cutString "+}" r with
      | Some (name, r1) =>
          match cut ">" r1 with
          | Some (suffix, EmptyString) =>
              Some {| RstConstant.Target := suffix; RstConstant.Name := name |}
          | _ => None
          end
      | None => None
      end
  | None => None
  end.

(** [_ :: span :: next :: _] is a constant-backed link when [next], the text
    behind the closing backtick, begins with the double underscore. *)
Fixpoint constantsOfPieces (pieces : list string) : list RstConstant.t :=
  match pieces with
  | _ :: tl =>
      match tl with
      | span :: more =>
          match more with
          | next :: _ =>
              match strings.HasPrefix next "__", constantOfSpan span with
              | true, Some c => c :: constantsOfPieces more
              | _, _ => constantsOfPieces tl
              end
          | [] => []
          end
      | [] => []
      end
  | [] => []
  end.

(** Modelled from the spec: [rst.ParseForConstants], which is not among the
    sources.  A span in backticks that is followed by a double underscore
    and ends with a target in angle brackets that begins with a placeholder
    in braces gives the name in the placeholder and the rest of the
    target. *)
Definition ParseForConstants (input : string) : list RstConstant.t :=
  constantsOfPieces (Split "`" input).

(** *** HTTP links: [http://] or [https://] and the text of the URL *)

(** A URL ends at white space and at the characters that close the anchor
    it stands in. *)
Definition isURLChar (c : ascii) : bool :=
  negb (Ascii.is_space c || Ascii.eqb c ")" || Ascii.eqb c ">" ||
        Ascii.eqb c "<" || Ascii.eqb c "`" || Ascii.eqb c "034" ||
        Ascii.eqb c "]").

Definition linkAt (s : string) : option RstHTTPLink :=
  let try scheme :=
    if strings.HasPrefix s scheme then
      match takeWhile isURLChar (strings.drop (String.length scheme) s) with
      | EmptyString => None
      | host => Some (scheme +:+ host)
      end
    else None in
  match try "https://" with
  | Some l => Some l
  | None => try "http://"
  end.

(** [skip] counts the characters of the last link that are still ahead. *)
Fixpoint linksFrom (skip : nat) (s : string) : list RstHTTPLink :=
  match s with
  | EmptyString => []
  | String _ s' =>
      match skip with
      | S k => linksFrom k s'
      | O =>
          match linkAt s with
          | Some l => l :: linksFrom (String.length l - 1) s'
          | None => linksFrom 0 s'
          end
      end
  end.

(** Modelled from the spec: [rst.ParseForHTTPLinks], which is not among the
    sources.  A link begins where the input reads [http://] or [https://]
    and goes on to the end of the URL; the scan goes on behind it. *)
Definition ParseForHTTPLinks (input : string) : list RstHTTPLink :=
  linksFrom 0 input.

(** [c] is one of the characters of [s]. *)
Fixpoint occurs (c : ascii) (s : string) : bool :=
  match s with
  | EmptyString => false
  | String a s' => if Ascii.eqb a c then true else occurs c s'
  end.

(** Modelled from the spec: the method [IsHTTPLink] of [RstConstant], whose
    definition is not among the sources.  A constant is a link when its
    target is an absolute URL, one that begins with [http://] or
    [https://]. *)
Definition IsHTTPLink (c : RstConstant.t) : bool :=
  strings.HasPrefix (RstConstant.Target c) "http://" ||
  strings.HasPrefix (RstConstant.Target c) "https://".

End rst.

(** ** Package [intersphinx]: decoding an object inventory

    The decoder itself is not among the sources; its tests and its call in
    [cmd/root.go] are.  It is written here from the description of the wire
    format: four header lines, then a zlib stream of records. *)

Module intersphinx.

(** The fixed beginnings of the four header lines, as in the test inputs. *)
Definition headerPrefixes : list string :=
  [ "# Sphinx inventory version";
    "# Project:";
    "# Version:";
    "# The remainder of this file is compressed using zlib" ].

(** Reads one line for each prefix and checks it; what follows the last of
    them is the body.  A line that is missing or does not begin with its
    prefix makes the header invalid. *)
Fixpoint readHeader (prefixes : list string) (s : string) : option string :=
  match prefixes with
  | [] => Some s
  | p :: ps =>
      match rst.cut "010" s with
      | Some (line, rest) =>
          if strings.HasPrefix line p then readHeader ps rest else None
      | None => None
      end
  end.

(** The two bytes that open a zlib stream (RFC 1950): the method is deflate,
    the window is at most 32K, and the two bytes, read as one big-endian
    number, are a multiple of 31. *)
Definition zlibHeaderOk (cmf flg : ascii) : bool :=
  let c := N_of_ascii cmf in
  let f := N_of_ascii flg in
  ((c mod 16 =? 8) && (c / 16 <=? 7) && ((c * 256 + f) mod 31 =? 0))%N.


Section Decoder.

(** What the zlib reader of the Go library returns for a stream whose first
    two bytes are well formed: the decompressed text, or nothing when the
    deflate data or its checksum is wrong. *)
Variable inflate : string → option string.

Definition zlibDecompress (body : string) : option string :=
  match body with
  | String cmf (String flg _) =>
      if zlibHeaderOk cmf flg then inflate body else None
  | _ => None
  end.

(** One record is [name domain:role priority uri dispname], separated by
    white space; the display name may hold spaces of its own.  A line with
    fewer than five fields is no record. *)
Definition recordOfLine (domain line : string) : option (string * Ref.t) :=
  match String.words line with
  | name :: _ :: _ :: uri :: _ :: _ =>
      Some (name, {| Ref.Target := domain +:+ uri; Ref.Type_ := "intersphinx" |})
  | _ => None
  end.

Definition records (domain text : string) : list (string * Ref.t) :=
  omap (recordOfLine domain) (rst.Split "010" text).

(** Modelled from the spec: [intersphinx.Intersphinx(file, domain)], the
    decoder of one inventory, which is not among the sources.  An invalid
    header or a body that does not decompress gives no entries; no error is
    returned in any case. *)
Definition Intersphinx (file domain : string) : gmap string Ref.t :=
  match readHeader headerPrefixes file with
  | None => ∅
  | Some body =>
      match zlibDecompress body with
      | None => ∅
      | Some text =>
          foldl (λ m e, <[e.1 := e.2]> m) ∅ (records domain text)
      end
  end.

End Decoder.

(** The prefix of an inventory URL: [strings.Split(phx, "objects.inv")[0]]
    (cmd/root.go, line 120). *)
Definition domainOf (phx : string) : string :=
  match rst.cutString "objects.inv" phx with
  | Some (l, _) => l
  | None => phx
  end.

(** *** A reader for zlib streams of one stored block

    Enough of RFC 1950 and RFC 1951 to run the decoder: a stream that holds
    a single final stored block (what zlib writes at level 0 for a short
    input) is read and its Adler-32 sum is checked; any other stream is
    refused. *)

Fixpoint adler32 (a b : N) (s : string) : N :=
  match s with
  | EmptyString => (b * 65536 + a)%N
  | String c s' =>
      let a' := ((a + N_of_ascii c) mod 65521)%N in
      adler32 a' ((b + a') mod 65521)%N s'
  end.

Fixpoint take (n : nat) (s : string) : string :=
  match n, s with
  | S n', String c s' => String c (take n' s')
  | _, _ => EmptyString
  end.

Definition inflateStored (stream : string) : option string :=
  match stream with
  | String _ (String _ (String h (String l0 (String l1
      (String n0 (String n1 rest)))))) =>
      let len := (N_of_ascii l0 + 256 * N_of_ascii l1)%N in
      let nlen := (N_of_ascii n0 + 256 * N_of_ascii n1)%N in
      if ((N_of_ascii h =? 1) && (len + nlen =? 65535))%N then
        let data := take (N.to_nat len) rest in
        match strings.drop (N.to_nat len) rest with
        | String s3 (String s2 (String s1 (String s0 EmptyString))) =>
            let sum := (((N_of_ascii s3 * 256 + N_of_ascii s2) * 256
                         + N_of_ascii s1) * 256 + N_of_ascii s0)%N in
            if ((String.length data =? N.to_nat len)%nat
                && (adler32 1 0 data =? sum)%N)
            then Some data else None
        | _ => None
        end
      else None
  | _ => None
  end.

(** *** The inputs of the decoder's tests *)

Definition unlines (ls : list string) : string :=
  foldr (λ l acc, l +:+ String "010" acc) EmptyString ls.

Definition bytes (bs : list nat) : string :=
  foldr (λ b acc, String (ascii_of_nat b) acc) EmptyString bs.

Definition testHeader : string :=
  unlines [ "# Sphinx inventory version 2";
            "# Project: golang";
            "# Version:";
            "# The remainder of this file is compressed using zlib." ].

(** [zText] of [TestSomeContent] and [TestInvalidContent] *)
Definition zText : string :=
  "whats-new std:doc -1 whats-new/ What's New" +:+ String "010"
  ("compatibility std:doc -1 compatibility/ Compatibility" +:+ String "010"
  ("fundamentals std:doc -1 fundamentals/ Fundamentals" +:+ String "010"
   "usage-examples std:doc -1 usage-examples/ Usage Examples")).



(** [zText] as a zlib stream: header, one stored block of 204 bytes,
    Adler-32 sum. *)
Definition zTextCompressed : string :=
  bytes [120; 1; 1; 204; 0; 51; 255] +:+ zText +:+ bytes [90; 78; 73; 189].

End intersphinx.

(** ** Example runs *)

Module Examples.

Definition indexFile : string := "/source/index.txt".

Definition noCatalog : RoleMap.t :=
  {| RoleMap.Roles := ∅; RoleMap.RawRoles := ∅; RoleMap.RstObjects := ∅ |}.

(** A corpus of one file that holds one doc role whose target names no
    file; docs-checking is on. *)
Definition docRole : RstRole.t :=
  {| RstRole.Target := "/no/such/page"; RstRole.RoleType := "role";
     RstRole.Name := "doc" |}.

Definition docInputs : Inputs :=
  {| refs := false; docs := true; changes := []; files := [indexFile];
     Constants := ∅; sphinxMap := ∅; allConstants := ∅;
     allRoleTargets := {[ docRole := indexFile ]};
     allHTTPLinks := ∅; rstSpecRoles := noCatalog |}.

(** One constant-backed link whose constant is configured with a URL. *)
Definition apiConstant : RstConstant.t :=
  {| RstConstant.Target := "/classes/AggregationCursor.html";
     RstConstant.Name := "api" |}.

Definition apiValue : string :=
  "https://mongodb.github.io/node-mongodb-native/4.0".

(** What the occurrence stands for: the value of the constant and the
    suffix. *)
Definition apiURL : string := apiValue +:+ RstConstant.Target apiConstant.

Definition constantInputs : Inputs :=
  {| refs := false; docs := false; changes := []; files := [indexFile];
     Constants := {[ "api" := apiValue ]}; sphinxMap := ∅;
     allConstants := {[ apiConstant := indexFile ]};
     allRoleTargets := ∅; allHTTPLinks := ∅; rstSpecRoles := noCatalog |}.

(** One constant-backed link whose constant is not configured. *)
Definition missingInputs : Inputs :=
  {| refs := true; docs := true; changes := []; files := [indexFile];
     Constants := ∅; sphinxMap := ∅;
     allConstants := {[ apiConstant := indexFile ]};
     allRoleTargets := ∅; allHTTPLinks := ∅; rstSpecRoles := noCatalog |}.

(** A templated role and a bare link that stand for the same URL. *)
Definition manualRole : RstRole.t :=
  {| RstRole.Target := "/core/security"; RstRole.RoleType := "role";
     RstRole.Name := "manual" |}.

Definition manualURL : string :=
  "https://docs.mongodb.com/manual/core/security".

Definition manualCatalog : RoleMap.t :=
  {| RoleMap.Roles := {[ "manual" := "https://docs.mongodb.com/manual%s" ]};
     RoleMap.RawRoles := ∅; RoleMap.RstObjects := ∅ |}.

Definition duplicateInputs : Inputs :=
  {| refs := false; docs := false; changes := []; files := [indexFile];
     Constants := ∅; sphinxMap := ∅; allConstants := ∅;
     allRoleTargets := {[ manualRole := indexFile ]};
     allHTTPLinks := {[ manualURL := indexFile ]};
     rstSpecRoles := manualCatalog |}.

(** A ref role that resolves nowhere, read while refs-checking is off and
    the role catalog is empty. *)
Definition refRole : RstRole.t :=
  {| RstRole.Target := "no-such-label"; RstRole.RoleType := "ref";
     RstRole.Name := "ref" |}.

Definition uncheckedInputs : Inputs :=
  {| refs := false; docs := false; changes := []; files := [indexFile];
     Constants := ∅; sphinxMap := ∅; allConstants := ∅;
     allRoleTargets := {[ refRole := indexFile ]};
     allHTTPLinks := ∅; rstSpecRoles := noCatalog |}.

(** A changeset of one path, and a document whose path is a proper
    substring of it. *)
Definition changedInputs : Inputs :=
  {| refs := false; docs := false;
     changes := ["source/tutorial/install.txt"];
     files := ["/source/tutorial/install.txt"; "/install.txt"];
     Constants := ∅; sphinxMap := ∅; allConstants := ∅;
     allRoleTargets := ∅; allHTTPLinks := ∅; rstSpecRoles := noCatalog |}.

(** A doc role, from the table of [TestRoleParser]. *)
Definition authText : string :=
  ":doc:`Internal Authentication</core/security-internal-authentication>`.".

Definition authRole : RstRole.t :=
  {| RstRole.Target := "/core/security-internal-authentication";
     RstRole.RoleType := "role"; RstRole.Name := "doc" |}.

End Examples.

(** ** The tables of the test files

    The rows of [rstTypes_test.go] and the inputs of [intersphinx_test.go],
    input and expected result; the row of [TestRoleParser] that reads the
    embedded fixture file is left out. *)

Module Tests.

Definition nl : string := String "010" EmptyString.
Definition tab : string := String "009" EmptyString.
Definition quote : string := String "034" EmptyString.

Definition anchor (name : string) : RefTarget.t := RefTarget.mk name.

Definition TestFindLocalRefs : list (string * list RefTarget.t) :=
  [ (EmptyString, []);
    (".. _:", []);
    (".. _foo:", [anchor "foo"]);
    (".. _foo:" +:+ nl +:+ ".. _bar:", [anchor "foo"; anchor "bar"]);
    (".. _foo:" +:+ nl +:+ ".. _bar:" +:+ nl +:+ nl +:+ nl +:+ nl +:+ nl +:+ nl
       +:+ ".. _baz:",
     [anchor "foo"; anchor "bar"; anchor "baz"]);
    (".. _version-4.1:", [anchor "version-4.1"]);
    (".. _mongodb-compatibility-table-about-{+driver+}:",
     [anchor "mongodb-compatibility-table-about-{+driver+}"]);
    ("    - ..  _unionWith-coll:", [anchor "unionWith-coll"]);
    (".. _faq-storage limit:", [anchor "faq-storage limit"]) ].

Definition constant (target name : string) : RstConstant.t :=
  {| RstConstant.Target := target; RstConstant.Name := name |}.

Definition TestConstantParser : list (string * list RstConstant.t) :=
  [ (EmptyString, []);
    (".. _:", []);
    (".. _: foo", []);
    ("This is a `constant link that should fail <{+api+}/flibbertypoo>`__",
     [constant "/flibbertypoo" "api"]);
    ("This is a `constant link that should succeed <{+api+}/classes/AggregationCursor.html>`__",
     [constant "/classes/AggregationCursor.html" "api"]);
    ("here is a :ref:`fantastic`", []);
    ("Here is one `constant link <{+api+}/One.html>`__ and a second `constant link <{+api+}/Two.html>`__",
     [constant "/One.html" "api"; constant "/Two.html" "api"]) ].

Definition TestFindLinkInConstant : list (RstConstant.t * bool) :=
  [ (constant "https://www.google.com" "api", true);
    (constant "v1.8.0" "api", false) ].

Definition TestLinkParser : list (string * list RstHTTPLink) :=
  [ (EmptyString, []);
    (nl +:+ nl +:+ nl, []);
    ("// code comments " +:+ nl +:+ " /* and more comments */ " +:+ nl
       +:+ " // and yet more!", []);
    ("we can say http and www without any links being found", []);
    ("https://www.flibberptyquz.co", ["https://www.flibberptyquz.co"]);
    ("markdown links are found" +:+ nl +:+ tab +:+ tab
       +:+ " [some markdown link](https://www.google.com)\n" +:+ quote
       +:+ " +" +:+ nl +:+ tab +:+ tab +:+ quote
       +:+ "   [some other link](https://a.bad.url)\n" +:+ quote +:+ " +",
     ["https://www.google.com"; "https://a.bad.url"]);
    ("http links in rst are found" +:+ nl +:+ tab +:+ tab +:+ quote
       +:+ "   this is a bad `url <https://www.flibbertypip.com>`__\n" +:+ quote
       +:+ " +" +:+ nl +:+ tab +:+ tab +:+ quote
       +:+ "   this is a good `url <https://www.github.com>`__",
     ["https://www.flibbertypip.com"; "https://www.github.com"]) ].

Definition role (target type name : string) : RstRole.t :=
  {| RstRole.Target := target; RstRole.RoleType := type; RstRole.Name := name |}.

Definition TestRoleParser : list (string * list RstRole.t) :=
  [ (EmptyString, []);
    (".. _:", []);
    (".. _: foo", []);
    ("This is a `constant link that should fail <{+api+}/flibbertypoo>`__", []);
    ("This is a `constant link that should succeed <{+api+}/classes/AggregationCursor.html>`__",
     []);
    ("here is a :ref:`fantastic`", [role "fantastic" "ref" "ref"]);
    ("here is a :ref:`fantastic` here is another :ref:`2 <mediocre-fantastic>` here is a :ref:`"
       +:+ nl +:+ "<not_great-fantastic>`",
     [role "fantastic" "ref" "ref"; role "mediocre-fantastic" "ref" "ref";
      role "not_great-fantastic" "ref" "ref"]);
    ("Here is one `constant link <{+api+}/One.html>`__ and a second `constant link <{+api+}/Two.html>`__",
     []);
    (":ref:`What information does the MongoDB Compatibility table show? <mongodb-compatibility-table-about-node>`",
     [role "mongodb-compatibility-table-about-node" "ref" "ref"]);
    ("- :v4.0:`https://docs.mongodb.com/v4.0 </tutorial/restore-sharded-cluster>`",
     [role "/tutorial/restore-sharded-cluster" "role" "v4.0"]);
    (":doc:`Internal Authentication</core/security-internal-authentication>`.",
     [role "/core/security-internal-authentication" "role" "doc"]);
    (":authaction:`find`/:authaction:`update`",
     [role "find" "role" "authaction"; role "update" "role" "authaction"]);
    (":node-api:`foo </AggregationCursor.html>`",
     [role "/AggregationCursor.html" "role" "node-api"]);
    (":node-api:`foo <AggregationCursorz.html>`",
     [role "AggregationCursorz.html" "role" "node-api"]);
    ("This is a :ref:`valid atlas ref <connect-to-your-cluster>`",
     [role "connect-to-your-cluster" "ref" "ref"]);
    ("This is an :ref:`nvalid ref <invalid_ref_sucka-fish>`",
     [role "invalid_ref_sucka-fish" "ref" "ref"]) ].

Definition TestFindsSharedIncludes : list (string * list SharedInclude.t) :=
  [ (EmptyString, []);
    (".. code-block::", []);
    (".. important::", []);
    (".. include:: /includes/foo.txt", []);
    (".. sharedinclude:: dbx/about-compatibility.rst",
     [SharedInclude.mk "dbx/about-compatibility.rst"]) ].

Definition TestFindDirectives : list (string * list RstDirective.t) :=
  [ (EmptyString, []);
    (".. code-block::", []);
    (".. important::", []);
    (".. include:: /includes/foo.txt",
     [RstDirective.mk "include" "/includes/foo.txt"]);
    (".. sharedinclude:: dbx/about-compatibility.rst",
     [RstDirective.mk "sharedinclude" "dbx/about-compatibility.rst"]);
    (".. serverstatus:: metrics.repl.apply.batches.totalMillis",
     [RstDirective.mk "serverstatus" "metrics.repl.apply.batches.totalMillis"]);
    (".. method:: getMemInfo()", [RstDirective.mk "method" "getMemInfo()"]);
    (".. method:: sh.removeShardTag(shard, tag)",
     [RstDirective.mk "method" "sh.removeShardTag(shard, tag)"]) ].

(** [expected] of [TestSomeContent] *)
Definition TestSomeContent : list (string * Ref.t) :=
  [ ("whats-new",
     Ref.mk "https://docs.mongodb.com/drivers/go/current/whats-new/" "intersphinx");
    ("compatibility",
     Ref.mk "https://docs.mongodb.com/drivers/go/current/compatibility/" "intersphinx");
    ("fundamentals",
     Ref.mk "https://docs.mongodb.com/drivers/go/current/fundamentals/" "intersphinx");
    ("usage-examples",
     Ref.mk "https://docs.mongodb.com/drivers/go/current/usage-examples/" "intersphinx") ].

End Tests.

(** ** Names used to state what a run does *)

(** The role names that have a case of their own in the switch of lines
    181-218; every other name is handled by the [default] case. *)
Definition builtinName (name : string) : bool :=
  String.eqb name "guilabel" || String.eqb name "ref" ||
  String.eqb name "doc" || String.eqb name "py:meth" ||
  String.eqb name "py:class".

(** The role names whose target is looked up as a reference. *)
Definition refName (name : string) : bool :=
  String.eqb name "ref" || String.eqb name "py:meth" ||
  String.eqb name "py:class".

(** The key a closure stores in [checkedUrls] when it runs. *)
Definition jobKey (j : Job) : option Key :=
  match j with
  | JobRole url _ _ => Some (KeyString url)
  | JobLink link _ => Some (KeyLink link)
  | JobNoop => None
  end.


(** Two work stacks with the same closures in opposite orders. *)
Definition stackAB : Plan :=
  {| planDiags := [];
     workStack := [ JobLink Examples.manualURL Examples.indexFile;
                    JobRole Examples.manualURL Examples.indexFile
                            Examples.manualRole ] |}.

Definition stackBA : Plan :=
  {| planDiags := [];
     workStack := [ JobRole Examples.manualURL Examples.indexFile
                            Examples.manualRole;
                    JobLink Examples.manualURL Examples.indexFile ] |}.

(** * Properties *)

(** ** Text *)

Lemma append_nil (t : string) : EmptyString +:+ t = t.
Proof. reflexivity. Qed.

Lemma append_cons (c : ascii) (s t : string) :
  String c s +:+ t = String c (s +:+ t).
Proof. reflexivity. Qed.

Lemma HasPrefix_spec (s p : string) :
  strings.HasPrefix s p = true ↔ ∃ t, s = p +:+ t.
Proof.
  revert s. induction p as [|a p IH]; intros s.
  - split; [intros _; by exists s | by destruct s].
  - destruct s as [|c s]; simpl.
    + split; [done | intros [t Ht]; discriminate Ht].
    + destruct (Ascii.eqb_spec c a) as [->|Hne].
      * rewrite IH. split; intros [t Ht]; exists t.
        -- by rewrite append_cons, Ht.
        -- rewrite append_cons in Ht. by injection Ht.
      * split; [done | intros [t Ht]].
        rewrite append_cons in Ht. injection Ht as Hc _. by destruct Hne.
Qed.

Lemma HasPrefix_refl (s : string) : strings.HasPrefix s s = true.
Proof.
  induction s as [|c s IH]; simpl; [done|]. by rewrite Ascii.eqb_refl.
Qed.

Lemma Contains_unfold (s sub : string) :
  strings.Contains s sub =
    if strings.HasPrefix s sub then true
    else match s with
         | EmptyString => false
         | String _ s' => strings.Contains s' sub
         end.
Proof. by destruct s. Qed.

(** [strings.Contains s substr] holds exactly when [substr] stands somewhere
    inside [s]. *)
Lemma Contains_spec (s sub : string) :
  strings.Contains s sub = true ↔ ∃ pre post, s = pre +:+ sub +:+ post.
Proof.
  induction s as [|c s IH]; rewrite Contains_unfold;
    destruct (strings.HasPrefix _ sub) eqn:Hp.
  - apply HasPrefix_spec in Hp as [t Ht]. split; [intros _ | done].
    by exists EmptyString, t.
  - split; [done | intros (pre & post & H)].
    destruct pre; [|discriminate H]. rewrite append_nil in H.
    assert (strings.HasPrefix EmptyString sub = true) as Hq
      by (apply HasPrefix_spec; by exists post).
    congruence.
  - apply HasPrefix_spec in Hp as [t Ht]. split; [intros _ | done].
    by exists EmptyString, t.
  - rewrite IH. split.
    + intros (pre & post & ->). by exists (String c pre), post.
    + intros (pre & post & H). destruct pre as [|a pre].
      * rewrite append_nil in H.
        assert (strings.HasPrefix (String c s) sub = true) as Hq
          by (apply HasPrefix_spec; by exists post).
        congruence.
      * rewrite append_cons in H. injection H as _ ->. by exists pre, post.
Qed.

Lemma Contains_refl (s : string) : strings.Contains s s = true.
Proof. by rewrite Contains_unfold, HasPrefix_refl. Qed.

Lemma TrimPrefix_slash (s : string) :
  strings.TrimPrefix (String "/" s) "/" = s.
Proof. reflexivity. Qed.

Lemma contains_spec (l : list string) (e : string) :
  contains l e = true ↔ ∃ a, a ∈ l ∧ strings.Contains a e = true.
Proof.
  induction l as [|a l IH]; simpl.
  - split; [done | intros (a & Ha & _); by apply elem_of_nil in Ha].
  - destruct (strings.Contains a e) eqn:Ha.
    + split; [intros _ | done]. exists a. split; [apply list_elem_of_here | done].
    + rewrite IH. split; intros (b & Hb & Hc); exists b; split; try done.
      * by apply list_elem_of_further.
      * apply elem_of_cons in Hb as [->|Hb]; [congruence | done].
Qed.

Lemma contains_self (l : list string) (e : string) :
  e ∈ l → contains l e = true.
Proof.
  intros He. apply contains_spec. exists e.
  split; [done | apply Contains_refl].
Qed.

(** ** Lists *)

Lemma elem_of_concat {A} (x : A) (ls : list (list A)) :
  x ∈ concat ls ↔ ∃ l, x ∈ l ∧ l ∈ ls.
Proof.
  induction ls as [|l ls IH]; simpl.
  - split; [by intros ?%elem_of_nil | by intros (l & _ & ?%elem_of_nil)].
  - rewrite elem_of_app, IH. split.
    + intros [H|(l' & H1 & H2)].
      * exists l. split; [done | apply list_elem_of_here].
      * exists l'. split; [done | by apply list_elem_of_further].
    + intros (l' & H1 & [->|H2]%elem_of_cons); [by left | right; by exists l'].
Qed.

(** ** The planning loops as concatenations of their iterations *)

Section Planning.

Variable order : MapRange.
Variable Sprintf : string → string → string.
Variable IsReachable : string → string * bool.
Variable IsHTTPLink : RstConstant.t → bool.
Variable allLocalRefs_Get : RstRole.t → bool.
Variable inp : Inputs.

Local Abbreviation roleStep_ := (roleStep Sprintf allLocalRefs_Get inp).
Local Abbreviation roleSwitch_ := (roleSwitch Sprintf allLocalRefs_Get inp).
Local Abbreviation constantStep_ := (constantStep IsHTTPLink inp).
Local Abbreviation constantsLoop_ := (constantsLoop order IsHTTPLink inp).
Local Abbreviation rolesLoop_ := (rolesLoop order Sprintf allLocalRefs_Get inp).
Local Abbreviation linksLoop_ := (linksLoop order inp).
Local Abbreviation plan_ := (plan order Sprintf IsHTTPLink allLocalRefs_Get inp).
Local Abbreviation runJob_ := (runJob IsReachable).
Local Abbreviation runPool_ := (runPool IsReachable).
Local Abbreviation Run_ := (Run order Sprintf IsReachable IsHTTPLink allLocalRefs_Get inp).

Lemma constantStep_diags st e :
  (constantStep_ st e).1 = st.1 ++ constantDiag inp e.
Proof.
  unfold constantStep, constantDiag.
  destruct (IsHTTPLink _); simpl;
    destruct (Constants inp !! _); simpl; by rewrite ?app_nil_r.
Qed.

Lemma foldl_constantStep_diags l st :
  (foldl constantStep_ st l).1 = st.1 ++ concat (constantDiag inp <$> l).
Proof.
  revert st. induction l as [|e l IH]; intros st; simpl.
  - by rewrite app_nil_r.
  - by rewrite IH, constantStep_diags, <-app_assoc.
Qed.

Lemma constantsLoop_diags :
  constantsLoop_.1 = concat (constantDiag inp <$> range order (allConstants inp)).
Proof. unfold constantsLoop. by rewrite foldl_constantStep_diags. Qed.

Lemma rolesLoop_spec checked :
  rolesLoop_ checked =
    (concat ((λ e, (roleStep_ checked e).1) <$> range order (allRoleTargets inp)),
     concat ((λ e, (roleStep_ checked e).2) <$> range order (allRoleTargets inp))).
Proof.
  unfold rolesLoop.
  generalize (range order (allRoleTargets inp)). intros l.
  enough (∀ acc : list Diag * list Job,
    foldl (λ acc e, let r := roleStep_ checked e in (acc.1 ++ r.1, acc.2 ++ r.2))
          acc l
    = (acc.1 ++ concat ((λ e, (roleStep_ checked e).1) <$> l),
       acc.2 ++ concat ((λ e, (roleStep_ checked e).2) <$> l))) as H
    by apply (H ([], [])).
  induction l as [|e l IH]; intros [d w]; simpl.
  - by rewrite !app_nil_r.
  - by rewrite IH; simpl; rewrite <-!app_assoc.
Qed.

Lemma linksLoop_spec checked links :
  linksLoop_ checked links = concat (linkStep inp checked <$> range order links).
Proof.
  unfold linksLoop.
  generalize (range order links). intros l.
  enough (∀ acc, foldl (λ acc e, acc ++ linkStep inp checked e) acc l
                 = acc ++ concat (linkStep inp checked <$> l)) as H
    by apply (H []).
  induction l as [|e l IH]; intros acc; simpl.
  - by rewrite app_nil_r.
  - by rewrite IH, <-app_assoc.
Qed.

Lemma runPool_spec p :
  runPool_ p =
    {| checkedUrls := checkedUrls (runPool_ p);
       probes := concat (jobProbes <$> workStack p);
       diagnostics :=
         planDiags p ++ concat (jobDiags IsReachable <$> workStack p) |}.
Proof.
  unfold runPool.
  enough (∀ jobs st,
    probes (foldl runJob_ st jobs) = probes st ++ concat (jobProbes <$> jobs) ∧
    diagnostics (foldl runJob_ st jobs)
      = diagnostics st ++ concat (jobDiags IsReachable <$> jobs)) as H.
  { destruct (H (workStack p) (mkExec ∅ [] (planDiags p))) as [H1 H2].
    destruct (foldl _ _ _) as [c pr d]. simpl in *. by rewrite H1, H2. }
  induction jobs as [|j jobs IH]; intros st; simpl.
  - by rewrite !app_nil_r.
  - destruct (IH (runJob_ st j)) as [-> ->].
    destruct j; simpl; by rewrite <-?app_assoc.
Qed.

(** Every closure on the work stack calls [utils.IsReachable]: the test on
    [checkedUrls] is made while planning, when the map is still empty. *)
Lemma plan_never_noop : JobNoop ∉ workStack plan_.
Proof.
  unfold plan; simpl. rewrite rolesLoop_spec, linksLoop_spec; simpl.
  rewrite elem_of_app, !elem_of_concat.
  intros [(l & Hj & Hl)|(l & Hj & Hl)];
    apply list_elem_of_fmap in Hl as ([k f] & -> & _).
  - revert Hj. unfold roleStep, roleSwitch, roleWorkFunc; simpl.
    repeat (case_match; simpl);
      rewrite ?elem_of_nil, ?list_elem_of_singleton; try done.
    all: by rewrite lookup_empty in *.
  - revert Hj. unfold linkStep, linkWorkFunc; simpl.
    rewrite lookup_empty. case_match; simpl;
      by rewrite ?elem_of_nil, ?list_elem_of_singleton.
Qed.

(** So the run makes one call of [utils.IsReachable] for every closure on
    the work stack, whatever their URLs are. *)
Lemma Run_probes_every_job :
  length (probes Run_) = length (workStack plan_).
Proof.
  unfold Run. rewrite runPool_spec. cbn [probes].
  pose proof plan_never_noop as H. revert H.
  generalize (workStack plan_). intros jobs.
  induction jobs as [|j jobs IH]; intros H; [done|].
  rewrite fmap_cons, concat_cons, length_app, IH.
  - destruct j; simpl; try done. destruct H. apply list_elem_of_here.
  - intros Hj. apply H. by apply list_elem_of_further.
Qed.

(** ** Counting diagnostics *)

Lemma occurrences_app d l1 l2 :
  occurrences d (l1 ++ l2) = occurrences d l1 + occurrences d l2.
Proof. unfold occurrences. by rewrite filter_app, length_app. Qed.

Lemma occurrences_absent d l : (∀ x, x ∈ l → x ≠ d) → occurrences d l = 0.
Proof.
  unfold occurrences. induction l as [|x l IH]; intros H; [done|].
  rewrite filter_cons. destruct (decide (x = d)) as [->|_].
  - destruct (H d); [apply list_elem_of_here | done].
  - apply IH. intros y Hy. apply H. by apply list_elem_of_further.
Qed.

Lemma occurrences_concat_perm {A} d (f : A → list Diag) l1 l2 :
  l1 ≡ₚ l2 →
  occurrences d (concat (f <$> l1)) = occurrences d (concat (f <$> l2)).
Proof.
  induction 1 as [|x l1 l2 _ IH|x y l|l1 l2 l3 _ IH1 _ IH2];
    rewrite ?fmap_cons, ?concat_cons, ?occurrences_app.
  - done.
  - by rewrite IH.
  - lia.
  - by rewrite IH1.
Qed.

(** The constants loop reports a constant with an undefined name once. *)
Lemma constantsLoop_reports_once con filename :
  allConstants inp !! con = Some filename →
  Constants inp !! RstConstant.Name con = None →
  occurrences (NotDefinedInConfig con) constantsLoop_.1 = 1.
Proof.
  intros Hcon Hname. rewrite constantsLoop_diags.
  rewrite (occurrences_concat_perm _ _ _ _ (range_perm order _ _ _)).
  rewrite <-(insert_delete_id _ _ _ Hcon).
  rewrite (occurrences_concat_perm _ _ _ _
             (map_to_list_insert _ _ _ (lookup_delete_eq _ _))).
  rewrite fmap_cons, concat_cons, occurrences_app.
  unfold constantDiag at 1; simpl. rewrite Hname.
  unfold occurrences at 1. rewrite filter_cons, decide_True by done. simpl.
  rewrite occurrences_absent; [done|].
  intros x (l & Hx & Hl)%elem_of_concat.
  apply list_elem_of_fmap in Hl as ([c f] & -> & Hcf).
  apply elem_of_map_to_list in Hcf.
  unfold constantDiag in Hx; simpl in Hx.
  destruct (Constants inp !! RstConstant.Name c); [by apply elem_of_nil in Hx|].
  apply list_elem_of_singleton in Hx as ->. intros [= ->].
  by rewrite lookup_delete_eq in Hcf.
Qed.

Lemma roleStep_diags_kind checked e x :
  x ∈ (roleStep_ checked e).1 →
  ∃ filename role,
    x = NotValidRef filename role ∨ x = NotValidFile filename role ∨
    x = NotValidRole filename role.
Proof.
  unfold roleStep, roleSwitch, refCheck.
  repeat (case_match; simpl);
    rewrite ?elem_of_nil, ?list_elem_of_singleton; try done;
    intros ->; do 2 eexists; eauto.
Qed.

Lemma jobDiags_kind j x :
  x ∈ jobDiags IsReachable j →
  (∃ filename url role resp, x = UrlNotValid filename url role resp) ∨
  (∃ filename link resp, x = LinkNotValid filename link resp).
Proof.
  destruct j; simpl; repeat case_match;
    rewrite ?elem_of_nil, ?list_elem_of_singleton; try done;
    intros ->; [left | right]; by repeat eexists.
Qed.

(** C7: every extracted constant whose name is not a key of the configured
    constants table is reported exactly once as not defined in config,
    whatever the refs and docs flags (and the rest of the inputs) are. *)
Theorem C7_undefined_constant_reported_once con filename :
  allConstants inp !! con = Some filename →
  Constants inp !! RstConstant.Name con = None →
  occurrences (NotDefinedInConfig con)
    (diagnostics (Run order Sprintf IsReachable IsHTTPLink allLocalRefs_Get inp))
  = 1.
Proof.
  intros Hcon Hname. unfold Run. rewrite runPool_spec; simpl.
  rewrite <-app_assoc, !occurrences_app.
  rewrite (constantsLoop_reports_once _ _ Hcon Hname).
  rewrite !occurrences_absent; [done| |].
  - intros x (l & Hx & Hl)%elem_of_concat.
    apply list_elem_of_fmap in Hl as (j & -> & _).
    apply jobDiags_kind in Hx as [(? & ? & ? & ? & ->) | (? & ? & ? & ->)]; done.
  - rewrite rolesLoop_spec; simpl.
    intros x (l & Hx & Hl)%elem_of_concat.
    apply list_elem_of_fmap in Hl as (e & -> & _).
    apply roleStep_diags_kind in Hx as (? & ? & [-> | [-> | ->]]); done.
Qed.

(** C9: a role or a link is in scope exactly when some entry of the active
    changeset holds the path of its document, a leading slash trimmed, as a
    substring; what is out of scope adds nothing to the plan, and what is in
    scope is classified (a role) or scheduled (a link). *)
Theorem C9_scope_is_substring_containment filename :
  (inScope inp filename = true ↔
     ∃ a pre post, a ∈ activeChanges inp ∧
       a = pre +:+ strings.TrimPrefix filename "/" +:+ post) ∧
  (∀ checked role,
     roleStep Sprintf allLocalRefs_Get inp checked (role, filename) =
       if inScope inp filename
       then roleSwitch Sprintf allLocalRefs_Get inp checked role filename
       else ([], [])) ∧
  (∀ checked link,
     linkStep inp checked (link, filename) =
       if inScope inp filename then [linkWorkFunc checked link filename]
       else []).
Proof.
  split; [|split].
  - unfold inScope. rewrite contains_spec. split.
    + intros (a & Ha & (pre & post & ->)%Contains_spec). by eexists _, pre, post.
    + intros (a & pre & post & Ha & ->). eexists. split; [done|].
      apply Contains_spec. by exists pre, post.
  - intros checked role. unfold roleStep; simpl. by destruct (inScope _ _).
  - intros checked link. unfold linkStep; simpl. by destruct (inScope _ _).
Qed.

(** C10: a role named guilabel, a role named ref, py:meth or py:class while
    refs-checking is off, and a role named doc while docs-checking is off
    send no diagnostic and put no closure on the work stack; the role
    catalog is not consulted for them. *)
Theorem C10_disabled_checks_skip_role checked role filename :
  RstRole.Name role = "guilabel" ∨
  (refs inp = false ∧
   (RstRole.Name role = "ref" ∨ RstRole.Name role = "py:meth" ∨
    RstRole.Name role = "py:class")) ∨
  (docs inp = false ∧ RstRole.Name role = "doc") →
  roleSwitch Sprintf allLocalRefs_Get inp checked role filename = ([], []) ∧
  roleStep Sprintf allLocalRefs_Get inp checked (role, filename) = ([], []).
Proof.
  intros H.
  assert (roleSwitch_ checked role filename = ([], [])) as Hs.
  { unfold roleSwitch.
    destruct H as [-> | [[-> [-> | [-> | ->]]] | [-> ->]]]; reflexivity. }
  split; [done|]. unfold roleStep; simpl. rewrite Hs. by destruct (negb _).
Qed.

(** With docs-checking on, a doc role in a file of the corpus is never
    reported: the test on line 195 looks for the file of the role, not for
    its target, among [files]. *)
Lemma doc_role_never_reported checked role filename :
  RstRole.Name role = "doc" → filename ∈ files inp →
  roleSwitch_ checked role filename = ([], []).
Proof.
  intros Hn Hf. unfold roleSwitch. rewrite Hn; simpl.
  rewrite (contains_self _ _ Hf). by destruct (docs inp).
Qed.

End Planning.

(** ** Runs on given inputs *)

Lemma range_empty order `{Countable K} {V} : range order (∅ : gmap K V) = [].
Proof.
  apply Permutation_nil_r. rewrite range_perm. by rewrite map_to_list_empty.
Qed.

Lemma range_singleton order `{Countable K} {V} (k : K) (v : V) :
  range order ({[ k := v ]} : gmap K V) = [(k, v)].
Proof.
  apply Permutation_singleton_r. rewrite range_perm.
  by rewrite map_to_list_singleton.
Qed.

Ltac run_example :=
  unfold Run, runPool, plan, constantsLoop, rolesLoop, linksLoop; simpl;
  rewrite ?range_empty, ?range_singleton; simpl;
  rewrite ?range_empty, ?range_singleton.

(** C1: a templated role and a bare link of one document stand for the
    same URL; both closures are put on the work stack and both call
    [utils.IsReachable], so the URL is probed twice. *)
Theorem C1_same_url_probed_twice order IsReachable IsHTTPLink allLocalRefs_Get :
  probes (Run order Sprintf1 IsReachable IsHTTPLink allLocalRefs_Get
              Examples.duplicateInputs)
  = [Examples.manualURL; Examples.manualURL].
Proof. run_example. reflexivity. Qed.

(** The link that the constants loop derives from a constant does not
    depend on the suffix of the constant: line 161 joins the table entry of
    the file name with the name of the constant. *)
Lemma constantStep_ignores_suffix IsHTTPLink inp st name suffix1 suffix2
    filename :
  (constantStep IsHTTPLink inp st
     ({| RstConstant.Target := suffix1; RstConstant.Name := name |}, filename)).2
  = (constantStep IsHTTPLink inp st
     ({| RstConstant.Target := suffix2; RstConstant.Name := name |}, filename)).2.
Proof. unfold constantStep; simpl. by destruct (IsHTTPLink _). Qed.

(** C2: the constant [api] is configured with a URL and is used with the
    suffix [/classes/AggregationCursor.html], so the occurrence stands for
    [Examples.apiURL].  The value tested on line 162 is the text [api]:
    whatever [IsHTTPLink] answers for it, the run never probes the URL the
    occurrence stands for, and with the test of the absolute URL nothing is
    scheduled at all. *)
Theorem C2_configured_constant_not_scheduled order Sprintf IsReachable
    allLocalRefs_Get :
  Constants Examples.constantInputs !! RstConstant.Name Examples.apiConstant
    = Some Examples.apiValue ∧
  rst.IsHTTPLink
    {| RstConstant.Target := Examples.apiURL; RstConstant.Name := "api" |}
    = true ∧
  (∀ IsHTTPLink,
     Examples.apiURL ∉
       probes (Run order Sprintf IsReachable IsHTTPLink allLocalRefs_Get
                   Examples.constantInputs)) ∧
  workStack (plan order Sprintf rst.IsHTTPLink allLocalRefs_Get
                  Examples.constantInputs) = [] ∧
  probes (Run order Sprintf IsReachable rst.IsHTTPLink allLocalRefs_Get
              Examples.constantInputs) = [].
Proof.
  split; [reflexivity|]. split; [reflexivity|]. split.
  - intros IsHTTPLink. run_example. unfold constantStep; simpl.
    destruct (IsHTTPLink _); simpl.
    + rewrite insert_empty, range_singleton. simpl.
      intros H%list_elem_of_singleton. discriminate H.
    + rewrite range_empty. simpl. apply not_elem_of_nil.
  - run_example. by split.
Qed.

(** C3: docs-checking is on and the target of the doc role names no file of
    the corpus, yet the run ends without a diagnostic. *)
Theorem C3_unknown_doc_target_not_reported order Sprintf IsReachable IsHTTPLink
    allLocalRefs_Get :
  docs Examples.docInputs = true ∧
  contains (files Examples.docInputs) (RstRole.Target Examples.docRole) = false ∧
  diagnostics (Run order Sprintf IsReachable IsHTTPLink allLocalRefs_Get
                   Examples.docInputs) = [].
Proof.
  split; [reflexivity|]. split; [reflexivity|].
  run_example. reflexivity.
Qed.

Lemma C7_undefined_constant_reported_once_witness :
  allConstants Examples.missingInputs !! Examples.apiConstant
    = Some Examples.indexFile ∧
  Constants Examples.missingInputs !! RstConstant.Name Examples.apiConstant
    = None ∧
  occurrences (NotDefinedInConfig Examples.apiConstant)
    (diagnostics (Run listOrder Sprintf1 (λ _, ("200 OK", true)) rst.IsHTTPLink
                      (λ _, false) Examples.missingInputs)) = 1.
Proof.
  split; [reflexivity|]. split; [reflexivity|].
  apply (C7_undefined_constant_reported_once listOrder Sprintf1
           (λ _, ("200 OK", true)) rst.IsHTTPLink (λ _, false)
           Examples.missingInputs Examples.apiConstant Examples.indexFile);
    reflexivity.
Defined.

Lemma C10_disabled_checks_skip_role_witness :
  (RstRole.Name Examples.refRole = "guilabel" ∨
   (refs Examples.uncheckedInputs = false ∧
    (RstRole.Name Examples.refRole = "ref" ∨
     RstRole.Name Examples.refRole = "py:meth" ∨
     RstRole.Name Examples.refRole = "py:class")) ∨
   (docs Examples.uncheckedInputs = false ∧
    RstRole.Name Examples.refRole = "doc")) ∧
  roleSwitch Sprintf1 (λ _, false) Examples.uncheckedInputs ∅
    Examples.refRole Examples.indexFile = ([], []) ∧
  roleStep Sprintf1 (λ _, false) Examples.uncheckedInputs ∅
    (Examples.refRole, Examples.indexFile) = ([], []).
Proof.
  assert (RstRole.Name Examples.refRole = "guilabel" ∨
   (refs Examples.uncheckedInputs = false ∧
    (RstRole.Name Examples.refRole = "ref" ∨
     RstRole.Name Examples.refRole = "py:meth" ∨
     RstRole.Name Examples.refRole = "py:class")) ∨
   (docs Examples.uncheckedInputs = false ∧
    RstRole.Name Examples.refRole = "doc")) as H.
  { right. left. split; [reflexivity | left; reflexivity]. }
  split; [exact H|].
  exact (C10_disabled_checks_skip_role Sprintf1 (λ _, false)
           Examples.uncheckedInputs ∅ Examples.refRole Examples.indexFile H).
Defined.

(** A document whose path is a proper substring of a changed path is in
    scope although it is not in the changeset. *)
Example install_in_scope :
  ("install.txt" ∉ changes Examples.changedInputs) ∧
  inScope Examples.changedInputs "/install.txt" = true.
Proof.
  split; [|reflexivity].
  intros H. apply list_elem_of_singleton in H. discriminate H.
Qed.

(** ** Extraction *)

Section Pieces.

Context {A : Type} (P : list A → Prop).
Hypothesis P_nil : P [].
Hypothesis P_one : ∀ x, P [x].
Hypothesis P_more : ∀ x y l, P l → P (y :: l) → P (x :: y :: l).

(** Induction over a list read two elements at a time, as the scanners of
    backtick-separated pieces read it. *)
Lemma pieces_ind : ∀ l, P l.
Proof.
  enough (∀ l, P l ∧ ∀ x, P (x :: l)) as H by (intros l; apply H).
  induction l as [|y l [IH1 IH2]]; split; auto.
Qed.

End Pieces.

Lemma mkRole_type name span :
  (RstRole.RoleType (rst.mkRole name span) = "ref" ↔
   RstRole.Name (rst.mkRole name span) = "ref") ∧
  (RstRole.Name (rst.mkRole name span) ≠ "ref" →
   RstRole.RoleType (rst.mkRole name span) = "role").
Proof.
  simpl. destruct (String.eqb_spec name "ref") as [->|Hne]; split; try done.
Qed.

Lemma rolesOfPieces_step x y l :
  rst.rolesOfPieces (x :: y :: l) =
    match l, rst.roleNameBefore x with
    | _ :: _, Some name => rst.mkRole name y :: rst.rolesOfPieces l
    | _, _ => rst.rolesOfPieces (y :: l)
    end.
Proof. reflexivity. Qed.

Lemma rolesOfPieces_made pieces r :
  r ∈ rst.rolesOfPieces pieces → ∃ name span, r = rst.mkRole name span.
Proof.
  induction pieces as [|x|x y l IH1 IH2] using pieces_ind; simpl.
  - by intros ?%elem_of_nil.
  - by intros ?%elem_of_nil.
  - destruct l as [|z l]; [by intros ?%elem_of_nil|].
    destruct (rst.roleNameBefore x) as [name|]; [|exact IH2].
    intros [->|H]%elem_of_cons; [by exists name, y | by apply IH1].
Qed.

(** C6: whatever the input, a role returned by role extraction has the type
    ref exactly when its name is ref, and a role of any other name, doc
    included, has the type role. *)
Theorem C6_role_type_follows_name (input : string) (r : RstRole.t) :
  r ∈ rst.ParseForRoles input →
  (RstRole.RoleType r = "ref" ↔ RstRole.Name r = "ref") ∧
  (RstRole.Name r ≠ "ref" → RstRole.RoleType r = "role").
Proof.
  intros (name & span & ->)%rolesOfPieces_made. apply mkRole_type.
Qed.

Lemma C6_role_type_follows_name_witness :
  Examples.authRole ∈ rst.ParseForRoles Examples.authText ∧
  (RstRole.RoleType Examples.authRole = "ref" ↔
   RstRole.Name Examples.authRole = "ref") ∧
  (RstRole.Name Examples.authRole ≠ "ref" →
   RstRole.RoleType Examples.authRole = "role").
Proof.
  assert (Examples.authRole ∈ rst.ParseForRoles Examples.authText) as H
    by (vm_compute; apply list_elem_of_here).
  split; [exact H|].
  exact (C6_role_type_follows_name Examples.authText Examples.authRole H).
Defined.

(** *** Inputs in which a character of the construct does not occur *)

Lemma absent_tail c a s :
  rst.occurs c (String a s) = false → rst.occurs c s = false.
Proof. simpl. by destruct (Ascii.eqb a c). Qed.

Lemma absent_dropWhile c p s :
  rst.occurs c s = false → rst.occurs c (rst.dropWhile p s) = false.
Proof.
  induction s as [|a s IH]; [done|]. intros H. simpl.
  destruct (p a); [|done]. apply IH. by apply absent_tail in H.
Qed.

Lemma absent_takeWhile c p s :
  rst.occurs c s = false → rst.occurs c (rst.takeWhile p s) = false.
Proof.
  induction s as [|a s IH]; [done|]. simpl.
  destruct (p a); [|done]. simpl. destruct (Ascii.eqb a c); [done|]. apply IH.
Qed.

Lemma absent_drop c n s :
  rst.occurs c s = false → rst.occurs c (strings.drop n s) = false.
Proof.
  revert s. induction n as [|n IH]; intros s H; [done|].
  destruct s as [|a s]; [done|]. simpl. apply IH. by apply absent_tail in H.
Qed.

Lemma absent_rev_app c s t :
  rst.occurs c s = false → rst.occurs c t = false →
  rst.occurs c (String.rev_app s t) = false.
Proof.
  revert t. induction s as [|a s IH]; intros t Hs Ht; [done|]. simpl.
  apply IH; [by apply absent_tail in Hs|].
  simpl in *. by destruct (Ascii.eqb a c).
Qed.

Lemma absent_rev c s :
  rst.occurs c s = false → rst.occurs c (String.rev s) = false.
Proof. intros H. by apply absent_rev_app. Qed.

Lemma cut_absent c s : rst.occurs c s = false → rst.cut c s = None.
Proof.
  induction s as [|a s IH]; [done|]. simpl.
  destruct (Ascii.eqb a c); [done|]. by intros ->%IH.
Qed.

Lemma HasPrefix_absent c s a p :
  rst.occurs c s = false → rst.occurs c (String a p) = true →
  strings.HasPrefix s (String a p) = false.
Proof.
  revert s a. induction p as [|b p IH]; intros s a Hs Hp.
  - simpl in Hp. destruct (Ascii.eqb_spec a c) as [->|]; [|done].
    destruct s as [|a' s]; [done|]. simpl in *.
    destruct (Ascii.eqb a' c); [done|]. done.
  - destruct s as [|a' s]; [done|]. simpl.
    destruct (Ascii.eqb_spec a' a) as [->|]; [|done].
    simpl in Hs, Hp. destruct (Ascii.eqb a c) eqn:Ha; [done|].
    apply (IH s b); [done|]. by simpl.
Qed.

Lemma Split_absent_pieces c sep s l :
  rst.occurs c s = false → l ∈ rst.Split sep s → rst.occurs c l = false.
Proof.
  revert l. induction s as [|a s IH]; intros l Hs; simpl.
  - by intros ->%list_elem_of_singleton.
  - pose proof (absent_tail _ _ _ Hs) as Hs'.
    destruct (Ascii.eqb a sep).
    + intros [->|H]%elem_of_cons; [done | by apply IH].
    + destruct (rst.Split sep s) as [|h t] eqn:E.
      * intros ->%list_elem_of_singleton. simpl in *.
        by destruct (Ascii.eqb a c).
      * intros [->|H]%elem_of_cons.
        -- simpl in *. destruct (Ascii.eqb a c); [done|].
           apply IH; [done | apply list_elem_of_here].
        -- apply IH; [done | by apply list_elem_of_further].
Qed.

Lemma Split_absent sep s : rst.occurs sep s = false → rst.Split sep s = [s].
Proof.
  induction s as [|a s IH]; [done|]. simpl.
  destruct (Ascii.eqb a sep); [done|]. by intros ->%IH.
Qed.

Lemma omap_none {A B} (f : A → option B) l :
  (∀ x, x ∈ l → f x = None) → omap f l = [].
Proof.
  induction l as [|x l IH]; intros H; [done|]. simpl.
  rewrite (H x) by apply list_elem_of_here.
  apply IH. intros y Hy. apply H. by apply list_elem_of_further.
Qed.

Lemma localRefOfLine_absent line :
  rst.occurs ":" line = false → rst.localRefOfLine line = None.
Proof.
  intros H. unfold rst.localRefOfLine.
  set (l := rst.stripListMarker _).
  assert (rst.occurs ":" l = false) as Hl.
  { unfold l, rst.stripListMarker. case_match;
      eauto using absent_dropWhile, absent_drop. }
  clearbody l. destruct (strings.HasPrefix l ".."); [|done].
  pose proof (absent_drop ":" 2 l Hl) as H1.
  destruct (strings.drop 2 l) as [|a l1]; [done|].
  destruct (Ascii.is_space a); [|done].
  pose proof (absent_dropWhile ":" Ascii.is_space _ H1) as H2.
  destruct (rst.dropWhile Ascii.is_space (String a l1)) as [|b l2]; [done|].
  apply absent_tail in H2.
  rewrite (cut_absent _ _ (absent_dropWhile _ Ascii.is_space _ H2)).
  by repeat case_match.
Qed.

Lemma directiveOfLine_absent line :
  rst.occurs ":" line = false → rst.directiveOfLine line = None.
Proof.
  intros H. unfold rst.directiveOfLine.
  pose proof (absent_dropWhile ":" Ascii.is_space _ H) as Hl.
  destruct (strings.HasPrefix _ ".."); [|done].
  pose proof (absent_drop ":" 2 _ Hl) as H1.
  destruct (strings.drop 2 _) as [|a l1]; [done|].
  destruct (Ascii.is_space a); [|done].
  rewrite (HasPrefix_absent ":" _ ":" ":"); [by case_match | | done].
  by do 2 apply absent_dropWhile.
Qed.

Lemma roleNameBefore_absent piece :
  rst.occurs ":" piece = false → rst.roleNameBefore piece = None.
Proof.
  intros H. unfold rst.roleNameBefore, rst.trailingRun.
  by rewrite cut_absent by by apply absent_rev, absent_takeWhile, absent_rev.
Qed.

Lemma rolesOfPieces_absent pieces :
  (∀ p, p ∈ pieces → rst.occurs ":" p = false) → rst.rolesOfPieces pieces = [].
Proof.
  induction pieces as [|x|x y l IH1 IH2] using pieces_ind; intros H; try done.
  rewrite rolesOfPieces_step.
  rewrite (roleNameBefore_absent x) by apply H, list_elem_of_here.
  assert (rst.rolesOfPieces (y :: l) = []) as Hy.
  { apply IH2. intros p Hp. apply H. by apply list_elem_of_further. }
  by destruct l.
Qed.

Lemma linkAt_absent s : rst.occurs ":" s = false → rst.linkAt s = None.
Proof.
  intros H. unfold rst.linkAt.
  by rewrite !(HasPrefix_absent ":" s) by done.
Qed.

Lemma linksFrom_absent skip s :
  rst.occurs ":" s = false → rst.linksFrom skip s = [].
Proof.
  revert skip. induction s as [|a s IH]; intros skip H; [done|].
  pose proof (absent_tail _ _ _ H) as H'.
  cbn [rst.linksFrom]. destruct skip; [|by apply IH].
  rewrite linkAt_absent by done. by apply IH.
Qed.

(** C8: every extraction operation is a total function to sequences.  An
    input without a colon holds no anchor, directive, shared include, role
    or HTTP link, and an input without a backtick holds no role and no
    constant-backed link; the empty input and the anchor lines with an empty
    label give the empty sequence for each of the six operations. *)
Theorem C8_extraction_of_inputs_without_the_construct :
  (∀ input, rst.occurs ":" input = false →
     rst.ParseForLocalRefs input = [] ∧ rst.ParseForDirectives input = [] ∧
     rst.ParseForSharedIncludes input = [] ∧ rst.ParseForRoles input = [] ∧
     rst.ParseForHTTPLinks input = []) ∧
  (∀ input, rst.occurs "`" input = false →
     rst.ParseForRoles input = [] ∧ rst.ParseForConstants input = []) ∧
  Forall (λ input,
     rst.ParseForLocalRefs input = [] ∧ rst.ParseForDirectives input = [] ∧
     rst.ParseForSharedIncludes input = [] ∧ rst.ParseForRoles input = [] ∧
     rst.ParseForConstants input = [] ∧ rst.ParseForHTTPLinks input = [])
    [EmptyString; ".. _:"; ".. _: foo"].
Proof.
  split; [|split].
  - intros input H.
    assert (rst.ParseForDirectives input = []) as Hd.
    { apply omap_none. intros l Hl. apply directiveOfLine_absent.
      by apply (Split_absent_pieces _ _ _ _ H Hl). }
    repeat split.
    + apply omap_none. intros l Hl. apply localRefOfLine_absent.
      by apply (Split_absent_pieces _ _ _ _ H Hl).
    + exact Hd.
    + unfold rst.ParseForSharedIncludes. by rewrite Hd.
    + apply rolesOfPieces_absent. intros p Hp.
      by apply (Split_absent_pieces _ _ _ _ H Hp).
    + by apply linksFrom_absent.
  - intros input H. unfold rst.ParseForRoles, rst.ParseForConstants.
    by rewrite Split_absent.
  - repeat constructor.
Qed.

Lemma C8_extraction_of_inputs_without_the_construct_witness :
  rst.occurs ":" "we can say http and www without any links being found" = false ∧
  rst.ParseForHTTPLinks "we can say http and www without any links being found" = [] ∧
  rst.occurs "`" ".. _foo:" = false ∧
  rst.ParseForConstants ".. _foo:" = [].
Proof.
  split; [reflexivity|]. split.
  - apply (proj1 C8_extraction_of_inputs_without_the_construct
             "we can say http and www without any links being found").
    reflexivity.
  - split; [reflexivity|].
    apply (proj1 (proj2 C8_extraction_of_inputs_without_the_construct) ".. _foo:").
    reflexivity.
Defined.

(** ** Inventory decoding *)

Section Inventory.

Variable inflate : string → option string.
Variable domain : string.

Local Abbreviation Intersphinx_ := (intersphinx.Intersphinx inflate).

(** The entry the decoder makes of a name and a uri. *)
Local Abbreviation entry := (λ rec : string * string,
  (rec.1, {| Ref.Target := domain +:+ rec.2; Ref.Type_ := "intersphinx" |})).




End Inventory.


(** ** The models on the rows of the test tables *)

Lemma TestFindLocalRefs_rows :
  Forall (λ c, rst.ParseForLocalRefs c.1 = c.2) Tests.TestFindLocalRefs.
Proof. repeat constructor. Qed.

Lemma TestConstantParser_rows :
  Forall (λ c, rst.ParseForConstants c.1 = c.2) Tests.TestConstantParser.
Proof. repeat constructor. Qed.

Lemma TestFindLinkInConstant_rows :
  Forall (λ c, rst.IsHTTPLink c.1 = c.2) Tests.TestFindLinkInConstant.
Proof. repeat constructor. Qed.

Lemma TestLinkParser_rows :
  Forall (λ c, rst.ParseForHTTPLinks c.1 = c.2) Tests.TestLinkParser.
Proof. repeat constructor. Qed.

Lemma TestRoleParser_rows :
  Forall (λ c, rst.ParseForRoles c.1 = c.2) Tests.TestRoleParser.
Proof. repeat constructor. Qed.

Lemma TestFindsSharedIncludes_rows :
  Forall (λ c, rst.ParseForSharedIncludes c.1 = c.2) Tests.TestFindsSharedIncludes.
Proof. repeat constructor. Qed.

Lemma TestFindDirectives_rows :
  Forall (λ c, rst.ParseForDirectives c.1 = c.2) Tests.TestFindDirectives.
Proof. repeat constructor. Qed.

(** [TestSomeContent], on a stored-block encoding of the records. *)
Lemma TestSomeContent_entries :
  intersphinx.Intersphinx intersphinx.inflateStored
    (intersphinx.testHeader +:+ intersphinx.zTextCompressed)
    (intersphinx.domainOf
       "https://docs.mongodb.com/drivers/go/current/objects.inv")
  = list_to_map Tests.TestSomeContent.
Proof. vm_compute. reflexivity. Qed.

(** * Further properties of the command *)

(** ** [contains] and the scope of a run *)

Lemma contains_app (l1 l2 : list string) (e : string) :
  contains (l1 ++ l2) e = contains l1 e || contains l2 e.
Proof.
  induction l1 as [|a l1 IH]; simpl; [done|].
  by destruct (strings.Contains a e).
Qed.

(** [contains] with the empty text: every string holds it, so the answer
    only tells whether the list is empty.  It is the needle of a document
    whose path is [/] or empty. *)
Theorem contains_empty_needle (l : list string) :
  contains l EmptyString = true ↔ l ≠ [].
Proof.
  destruct l as [|a l]; simpl; [done|]. by rewrite Contains_unfold.
Qed.

Lemma append_nil_r (s : string) : s +:+ EmptyString = s.
Proof.
  induction s as [|c s IH]; [done|]. by rewrite append_cons, IH.
Qed.

Lemma append_assoc (s t u : string) : (s +:+ t) +:+ u = s +:+ t +:+ u.
Proof.
  induction s as [|c s IH]; [done|]. by rewrite !append_cons, IH.
Qed.

(** A needle found in a list is found in every list that extends it, and
    so is every text that the needle holds: adding entries to a changeset
    never takes a document out of scope, and a document whose path is part
    of the path of a document in scope is in scope. *)
Theorem contains_monotone (l l1 l2 : list string) (e pre post : string) :
  contains l (pre +:+ e +:+ post) = true →
  contains (l1 ++ l ++ l2) e = true.
Proof.
  intros (a & Ha & (p & q & ->)%Contains_spec)%contains_spec.
  rewrite !contains_app. apply orb_true_iff. right.
  apply orb_true_iff. left. apply contains_spec. eexists. split; [done|].
  apply Contains_spec. exists (p +:+ pre), (post +:+ q).
  by rewrite !append_assoc.
Qed.

Section Scope.

Variable inp : Inputs.

Lemma TrimPrefix_contained (s p : string) :
  strings.Contains s (strings.TrimPrefix s p) = true.
Proof.
  unfold strings.TrimPrefix. destruct (strings.HasPrefix s p) eqn:Hp.
  - apply HasPrefix_spec in Hp as [t ->]. apply Contains_spec.
    exists p, EmptyString.
    assert (strings.drop (String.length p) (p +:+ t) = t) as ->.
    { clear. induction p as [|c p IH]; [by destruct t | exact IH]. }
    by rewrite append_nil_r.
  - apply Contains_refl.
Qed.

(** With an empty changeset (lines 171-173) every file of the corpus is in
    scope: the changeset is the list of files, and a path holds its own
    trimmed form. *)
Theorem empty_changeset_covers_corpus (filename : string) :
  changes inp = [] → filename ∈ files inp → inScope inp filename = true.
Proof.
  intros Hc Hf. unfold inScope, activeChanges. rewrite Hc.
  apply contains_spec. exists filename. split; [done|].
  apply TrimPrefix_contained.
Qed.

End Scope.

(** ** The prefix of an inventory URL (line 120) *)

Lemma cutString_spec (sub s l r : string) :
  rst.cutString sub s = Some (l, r) → s = l +:+ sub +:+ r.
Proof.
  revert l r. induction s as [|c s IH]; intros l r.
  - simpl. destruct (strings.HasPrefix EmptyString sub) eqn:Hp; [|done].
    intros [= <- <-]. by destruct sub.
  - cbn [rst.cutString]. destruct (strings.HasPrefix (String c s) sub) eqn:Hp.
    + intros [= <- <-]. apply HasPrefix_spec in Hp as [t Ht].
      rewrite Ht at 1. rewrite append_nil. f_equal. rewrite Ht.
      clear. induction sub as [|a sub IH]; [by destruct t | exact IH].
    + destruct (rst.cutString sub s) as [[l' r']|]; [|done].
      intros [= <- <-]. rewrite append_cons. f_equal. by apply IH.
Qed.

Lemma cutString_none (sub s : string) :
  rst.cutString sub s = None ↔ strings.Contains s sub = false.
Proof.
  induction s as [|c s IH].
  - simpl. by destruct (strings.HasPrefix EmptyString sub).
  - cbn [rst.cutString]. rewrite Contains_unfold.
    destruct (strings.HasPrefix (String c s) sub); [done|].
    rewrite <-IH. by destruct (rst.cutString sub s) as [[??]|].
Qed.

(** No occurrence of [objects.inv] begins inside [d] and ends behind it:
    the letter o is the first letter of the name only. *)
Lemma objects_inv_no_overlap (d rest : string) :
  strings.HasPrefix (d +:+ "objects.inv" +:+ rest) "objects.inv" = true →
  d = EmptyString ∨ strings.HasPrefix d "objects.inv" = true.
Proof.
  intros H.
  do 11 (destruct d as [|? d]; [first [by left | simpl in H;
    repeat (destruct (Ascii.eqb _ _); try done)]|]).
  right. simpl in *. by repeat (destruct (Ascii.eqb _ _); try done).
Qed.

(** [strings.Split(phx, "objects.inv")[0]]: a URL without the file name is
    returned as it is, a URL with it is cut in front of its first
    occurrence, and the result of appending the file name (and anything
    behind it) to a prefix that does not hold it is the prefix again. *)
Theorem domainOf_prefix (phx : string) :
  (strings.Contains phx "objects.inv" = false →
     intersphinx.domainOf phx = phx) ∧
  (strings.Contains phx "objects.inv" = true →
     ∃ rest, phx = intersphinx.domainOf phx +:+ "objects.inv" +:+ rest) ∧
  (∀ rest, strings.Contains phx "objects.inv" = false →
     intersphinx.domainOf (phx +:+ "objects.inv" +:+ rest) = phx).
Proof.
  unfold intersphinx.domainOf. split; [|split].
  - intros H. by apply cutString_none in H as ->.
  - intros H. destruct (rst.cutString _ phx) as [[l r]|] eqn:Hc.
    + exists r. by apply cutString_spec.
    + apply cutString_none in Hc. congruence.
  - intros rest. induction phx as [|c d IH]; intros H; [done|].
    rewrite Contains_unfold in H.
    destruct (strings.HasPrefix (String c d) "objects.inv") eqn:Hp; [done|].
    rewrite append_cons. cbn [rst.cutString].
    destruct (strings.HasPrefix (String c (d +:+ _)) _) eqn:Hq.
    + rewrite <-append_cons in Hq.
      apply objects_inv_no_overlap in Hq as [?|?]; congruence.
    + specialize (IH H).
      destruct (rst.cutString _ (d +:+ _)) as [[l r]|]; congruence.
Qed.

(** ** What a run reports and what it probes *)

Lemma elem_of_range order `{Countable K} {V} (m : gmap K V) (k : K) (v : V) :
  (k, v) ∈ range order m ↔ m !! k = Some v.
Proof. rewrite range_perm. apply elem_of_map_to_list. Qed.

Lemma occurrences_le_length d l : occurrences d l ≤ length l.
Proof. apply length_filter. Qed.

Lemma occurrences_elem_of d l : d ∈ l ↔ occurrences d l ≠ 0.
Proof.
  unfold occurrences. induction l as [|x l IH].
  - split; [by intros ?%elem_of_nil | done].
  - rewrite filter_cons, elem_of_cons. destruct (decide (x = d)) as [->|Hne].
    + split; [done | by left].
    + rewrite <-IH. split; [intros [?|?]; [congruence | done] | by right].
Qed.

(** Among the lists an iteration over a map gives, only the one of the
    key [k] can hold [d]: [d] occurs as often as in that list. *)
Lemma occurrences_range order `{Countable K} {V} (m : gmap K V)
    (f : K * V → list Diag) (d : Diag) (k : K) :
  (∀ e, e.1 ≠ k → d ∉ f e) →
  occurrences d (concat (f <$> range order m)) =
    match m !! k with
    | Some v => occurrences d (f (k, v))
    | None => 0
    end.
Proof.
  intros Hother.
  assert (∀ m' : gmap K V, m' !! k = None →
            occurrences d (concat (f <$> map_to_list m')) = 0) as Hrest.
  { intros m' Hk. apply occurrences_absent.
    intros x (l & Hx & Hl)%elem_of_concat.
    apply list_elem_of_fmap in Hl as ([k' v'] & -> & He).
    apply elem_of_map_to_list in He. intros ->.
    apply (Hother (k', v')); [|done]. simpl. intros ->. congruence. }
  rewrite (occurrences_concat_perm _ _ _ _ (range_perm order _ _ _)).
  destruct (m !! k) as [v|] eqn:Hk; [|by apply Hrest].
  rewrite <-(insert_delete_id _ _ _ Hk).
  rewrite (occurrences_concat_perm _ _ _ _
             (map_to_list_insert _ _ _ (lookup_delete_eq _ _))).
  rewrite fmap_cons, concat_cons, occurrences_app.
  rewrite Hrest by apply lookup_delete_eq. lia.
Qed.

Lemma concat_fmap_concat {A B} (f : A → list B) (ls : list (list A)) :
  concat (f <$> concat ls) = concat ((λ l, concat (f <$> l)) <$> ls).
Proof.
  induction ls as [|l ls IH]; [done|].
  rewrite concat_cons, fmap_app, concat_app, fmap_cons, concat_cons.
  by rewrite IH.
Qed.


Section Outcome.

Variable order : MapRange.
Variable Sprintf : string → string → string.
Variable IsReachable : string → string * bool.
Variable IsHTTPLink : RstConstant.t → bool.
Variable allLocalRefs_Get : RstRole.t → bool.
Variable inp : Inputs.

Local Abbreviation step := (roleStep Sprintf allLocalRefs_Get inp ∅).
Local Abbreviation links := (constantsLoop order IsHTTPLink inp).2.
Local Abbreviation thePlan :=
  (plan order Sprintf IsHTTPLink allLocalRefs_Get inp).
Local Abbreviation theRun :=
  (Run order Sprintf IsReachable IsHTTPLink allLocalRefs_Get inp).

(** The three sources of the diagnostics of a run, and its work stack. *)
Lemma workStack_parts :
  workStack thePlan =
    concat ((λ e, (step e).2) <$> range order (allRoleTargets inp)) ++
    concat (linkStep inp ∅ <$> range order links).
Proof. unfold plan; simpl. by rewrite rolesLoop_spec, linksLoop_spec. Qed.

Lemma diagnostics_parts :
  diagnostics theRun =
    concat (constantDiag inp <$> range order (allConstants inp)) ++
    concat ((λ e, (step e).1) <$> range order (allRoleTargets inp)) ++
    concat ((λ e, concat (jobDiags IsReachable <$> (step e).2))
              <$> range order (allRoleTargets inp)) ++
    concat ((λ e, concat (jobDiags IsReachable <$> linkStep inp ∅ e))
              <$> range order links).
Proof.
  unfold Run. rewrite runPool_spec. cbn [diagnostics].
  rewrite workStack_parts, fmap_app, concat_app.
  rewrite !concat_fmap_concat, <-!list_fmap_compose.
  unfold plan; cbn [planDiags]. rewrite rolesLoop_spec. cbn [fst].
  by rewrite constantsLoop_diags, <-!app_assoc.
Qed.

Lemma probes_parts :
  probes theRun =
    concat ((λ e, concat (jobProbes <$> (step e).2))
              <$> range order (allRoleTargets inp)) ++
    concat ((λ e, concat (jobProbes <$> linkStep inp ∅ e))
              <$> range order links).
Proof.
  unfold Run. rewrite runPool_spec. cbn [probes].
  rewrite workStack_parts, fmap_app, concat_app.
  by rewrite !concat_fmap_concat, <-!list_fmap_compose.
Qed.

(** *** One role, one link *)

Ltac name_cases :=
  repeat match goal with
    | |- context [String.eqb ?a ?b] => destruct (String.eqb_spec a b); subst
    | H : context [String.eqb ?a ?b] |- _ =>
        destruct (String.eqb_spec a b); subst
    end;
  simpl in *.

Ltac finish :=
  try done;
  try (intuition (simplify_eq; eauto; congruence));
  try (split; [intros ?; simplify_eq; repeat split; eauto; congruence
              | intros (? & ? & ?); repeat destruct_and?; simplify_eq;
                eauto; congruence]).

Ltac step_cases role :=
  destruct role as [target type name];
  unfold roleStep, roleSwitch, refCheck, roleWorkFunc, builtinName, refName;
  simpl; rewrite ?lookup_empty;
  destruct (inScope _ _); simpl; name_cases;
  repeat case_match; simpl;
  rewrite ?elem_of_nil, ?list_elem_of_singleton.

Lemma step_diags_of role f x :
  x ∈ (step (role, f)).1 →
  x = NotValidRef f role ∨ x = NotValidFile f role ∨ x = NotValidRole f role.
Proof. step_cases role; finish. Qed.

Lemma step_diags_length e : length (step e).1 ≤ 1.
Proof. destruct e as [role f]. step_cases role; simpl; lia. Qed.

Lemma step_jobs_length e : length (step e).2 ≤ 1.
Proof. destruct e as [role f]. step_cases role; simpl; lia. Qed.

Lemma step_NotValidRef role f :
  NotValidRef f role ∈ (step (role, f)).1 ↔
    inScope inp f = true ∧ refs inp = true ∧
    refName (RstRole.Name role) = true ∧
    sphinxMap inp !! RstRole.Target role = None ∧
    allLocalRefs_Get role = false.
Proof. step_cases role; finish. Qed.

Lemma step_NotValidRole role f :
  NotValidRole f role ∈ (step (role, f)).1 ↔
    inScope inp f = true ∧ builtinName (RstRole.Name role) = false ∧
    RoleMap.Roles (rstSpecRoles inp) !! RstRole.Name role = None ∧
    (RstRole.Name role ∉ RoleMap.RawRoles (rstSpecRoles inp)) ∧
    (RstRole.Name role ∉ RoleMap.RstObjects (rstSpecRoles inp)).
Proof. step_cases role; finish. Qed.

Lemma step_jobs role f j :
  j ∈ (step (role, f)).2 ↔
    inScope inp f = true ∧ builtinName (RstRole.Name role) = false ∧
    ∃ format, RoleMap.Roles (rstSpecRoles inp) !! RstRole.Name role
                = Some format ∧
              j = JobRole (Sprintf format (RstRole.Target role)) f role.
Proof.
  step_cases role; split; try done; try (intros ->; by eauto 6);
    intros (? & ? & ? & ? & ?); by simplify_eq.
Qed.

Lemma linkStep_jobs link f j :
  j ∈ linkStep inp ∅ (link, f) ↔ inScope inp f = true ∧ j = JobLink link f.
Proof.
  unfold linkStep, linkWorkFunc; simpl. rewrite lookup_empty.
  destruct (inScope _ _); simpl;
    rewrite ?elem_of_nil, ?list_elem_of_singleton; finish.
Qed.

Lemma constantDiag_of e x : x ∈ constantDiag inp e → x = NotDefinedInConfig e.1.
Proof.
  unfold constantDiag. case_match;
    rewrite ?elem_of_nil, ?list_elem_of_singleton; finish.
Qed.

Lemma role_job_diags role f x :
  x ∈ concat (jobDiags IsReachable <$> (step (role, f)).2) ↔
    inScope inp f = true ∧ builtinName (RstRole.Name role) = false ∧
    ∃ format, RoleMap.Roles (rstSpecRoles inp) !! RstRole.Name role
                = Some format ∧
              (IsReachable (Sprintf format (RstRole.Target role))).2 = false ∧
              x = UrlNotValid f (Sprintf format (RstRole.Target role)) role
                    (IsReachable (Sprintf format (RstRole.Target role))).1.
Proof.
  rewrite elem_of_concat. split.
  - intros (l & Hx & (j & -> & Hj)%list_elem_of_fmap).
    apply step_jobs in Hj as (Hs & Hb & format & Hf & ->).
    repeat split; [done..|]. exists format. simpl in Hx.
    destruct (IsReachable _) as [resp []]; simpl in *;
      [by apply elem_of_nil in Hx|].
    by apply list_elem_of_singleton in Hx.
  - intros (Hs & Hb & format & Hf & Hr & ->).
    exists (jobDiags IsReachable
              (JobRole (Sprintf format (RstRole.Target role)) f role)).
    split.
    + simpl. rewrite Hr. apply list_elem_of_here.
    + apply list_elem_of_fmap_2, step_jobs. eauto 6.
Qed.

Lemma link_job_diags link f x :
  x ∈ concat (jobDiags IsReachable <$> linkStep inp ∅ (link, f)) ↔
    inScope inp f = true ∧ (IsReachable link).2 = false ∧
    x = LinkNotValid f link (IsReachable link).1.
Proof.
  rewrite elem_of_concat. split.
  - intros (l & Hx & (j & -> & Hj)%list_elem_of_fmap).
    apply linkStep_jobs in Hj as (Hs & ->). simpl in Hx.
    destruct (IsReachable _) as [resp []]; simpl in *;
      [by apply elem_of_nil in Hx|].
    by apply list_elem_of_singleton in Hx.
  - intros (Hs & Hr & ->). exists (jobDiags IsReachable (JobLink link f)).
    split.
    + simpl. rewrite Hr. apply list_elem_of_here.
    + by apply list_elem_of_fmap_2, linkStep_jobs.
Qed.

Lemma job_diags_length (jobs : list Job) :
  length jobs ≤ 1 → length (concat (jobDiags IsReachable <$> jobs)) ≤ 1.
Proof.
  destruct jobs as [|j [|??]]; simpl; [lia | | lia]. intros _.
  rewrite app_nil_r. destruct j; simpl; repeat case_match; simpl; lia.
Qed.

(** How often a diagnostic occurs in a run, by its kind: each kind comes
    from one loop, and within the loop from the iteration of one key. *)
Lemma occurrences_constant con :
  occurrences (NotDefinedInConfig con) (diagnostics theRun) =
    match allConstants inp !! con with
    | Some v => occurrences (NotDefinedInConfig con) (constantDiag inp (con, v))
    | None => 0
    end.
Proof.
  rewrite diagnostics_parts, !occurrences_app.
  rewrite (occurrences_range order _ _ _ con).
  - rewrite !occurrences_absent; [lia|..];
      intros x (l & Hx & (e & -> & _)%list_elem_of_fmap)%elem_of_concat;
      destruct e as [k f].
    + by apply link_job_diags in Hx as (_ & _ & ->).
    + by apply role_job_diags in Hx as (_ & _ & ? & _ & _ & ->).
    + by apply step_diags_of in Hx as [-> | [-> | ->]].
  - intros e Hne Hx%constantDiag_of. congruence.
Qed.

Lemma occurrences_role_diag d role f :
  d = NotValidRef f role ∨ d = NotValidFile f role ∨ d = NotValidRole f role →
  occurrences d (diagnostics theRun) =
    match allRoleTargets inp !! role with
    | Some v => occurrences d (step (role, v)).1
    | None => 0
    end.
Proof.
  intros Hd. rewrite diagnostics_parts, !occurrences_app.
  rewrite (occurrences_range order (allRoleTargets inp) _ _ role).
  - rewrite !occurrences_absent; [lia|..];
      intros x (l & Hx & (e & -> & _)%list_elem_of_fmap)%elem_of_concat;
      destruct e as [k v].
    + apply link_job_diags in Hx as (_ & _ & ->). by destruct Hd as [-> | [-> | ->]].
    + apply role_job_diags in Hx as (_ & _ & ? & _ & _ & ->).
      by destruct Hd as [-> | [-> | ->]].
    + apply constantDiag_of in Hx as ->. by destruct Hd as [-> | [-> | ->]].
  - intros [k v] Hne Hx%step_diags_of. simpl in Hne.
    destruct Hd as [-> | [-> | ->]], Hx as [?|[?|?]]; congruence.
Qed.

Lemma occurrences_url_diag f url role resp :
  occurrences (UrlNotValid f url role resp) (diagnostics theRun) =
    match allRoleTargets inp !! role with
    | Some v =>
        occurrences (UrlNotValid f url role resp)
          (concat (jobDiags IsReachable <$> (step (role, v)).2))
    | None => 0
    end.
Proof.
  rewrite diagnostics_parts, !occurrences_app.
  rewrite (occurrences_range order (allRoleTargets inp)
             (λ e, concat (jobDiags IsReachable <$> (step e).2)) _ role).
  - rewrite !occurrences_absent; [lia|..];
      intros x (l & Hx & (e & -> & _)%list_elem_of_fmap)%elem_of_concat;
      destruct e as [k v].
    + by apply link_job_diags in Hx as (_ & _ & ->).
    + by apply step_diags_of in Hx as [-> | [-> | ->]].
    + by apply constantDiag_of in Hx as ->.
  - intros [k v] Hne Hx. apply role_job_diags in Hx as (_ & _ & ? & _ & _ & Hx).
    simpl in Hne. congruence.
Qed.

Lemma occurrences_link_diag f link resp :
  occurrences (LinkNotValid f link resp) (diagnostics theRun) =
    match links !! link with
    | Some v =>
        occurrences (LinkNotValid f link resp)
          (concat (jobDiags IsReachable <$> linkStep inp ∅ (link, v)))
    | None => 0
    end.
Proof.
  rewrite diagnostics_parts, !occurrences_app.
  rewrite (occurrences_range order links
             (λ e, concat (jobDiags IsReachable <$> linkStep inp ∅ e)) _ link).
  - rewrite !occurrences_absent; [lia|..];
      intros x (l & Hx & (e & -> & _)%list_elem_of_fmap)%elem_of_concat;
      destruct e as [k v].
    + by apply role_job_diags in Hx as (_ & _ & ? & _ & _ & ->).
    + by apply step_diags_of in Hx as [-> | [-> | ->]].
    + by apply constantDiag_of in Hx as ->.
  - intros [k v] Hne Hx. apply link_job_diags in Hx as (_ & _ & Hx).
    simpl in Hne. congruence.
Qed.

(** *** The diagnostics of a run, kind by kind *)

(** A constant is reported as not defined in config at most once, and it
    is reported exactly when it was gathered and its name is not a key of
    the configured table (lines 157-160): a constant with a configured
    name is never reported, nor is one that was not gathered. *)
Theorem constant_reported_iff_undefined con :
  occurrences (NotDefinedInConfig con)
    (diagnostics (Run order Sprintf IsReachable IsHTTPLink allLocalRefs_Get inp))
    ≤ 1 ∧
  (NotDefinedInConfig con ∈
     diagnostics (Run order Sprintf IsReachable IsHTTPLink allLocalRefs_Get inp)
   ↔ is_Some (allConstants inp !! con) ∧
     Constants inp !! RstConstant.Name con = None).
Proof.
  rewrite occurrences_elem_of, occurrences_constant.
  unfold constantDiag; simpl.
  destruct (allConstants inp !! con) as [v|]; simpl.
  - destruct (Constants inp !! RstConstant.Name con); unfold occurrences;
      rewrite ?filter_nil, ?filter_cons, ?decide_True by done; simpl.
    + split; [lia|]. split; [done | by intros [_ ?]].
    + split; [lia|]. split; [by eauto | done].
  - split; [lia|]. split; [done | by intros [[? [=]] _]].
Qed.

(** A role is reported as not a valid ref at most once, and exactly when it
    is in the index with that document, the document is in scope,
    refs-checking is on, the role is named ref, py:meth or py:class, and its
    target is neither a key of the intersphinx map nor found among the local
    anchors (lines 184-218). *)
Theorem ref_reported_iff_unresolved role f :
  occurrences (NotValidRef f role)
    (diagnostics (Run order Sprintf IsReachable IsHTTPLink allLocalRefs_Get inp))
    ≤ 1 ∧
  (NotValidRef f role ∈
     diagnostics (Run order Sprintf IsReachable IsHTTPLink allLocalRefs_Get inp)
   ↔ allRoleTargets inp !! role = Some f ∧ inScope inp f = true ∧
     refs inp = true ∧ refName (RstRole.Name role) = true ∧
     sphinxMap inp !! RstRole.Target role = None ∧
     allLocalRefs_Get role = false).
Proof.
  rewrite occurrences_elem_of, (occurrences_role_diag _ role f) by auto.
  destruct (allRoleTargets inp !! role) as [v|] eqn:Hr.
  - split.
    + etrans; [apply occurrences_le_length | apply step_diags_length].
    + rewrite <-occurrences_elem_of. split.
      * intros H. assert (v = f) as ->.
        { apply step_diags_of in H as [?|[?|?]]; congruence. }
        by apply step_NotValidRef in H.
      * intros ([= ->] & H). by apply step_NotValidRef.
  - split; [lia|]. split; [done | by intros [[=] _]].
Qed.

(** A role is reported as not a valid role at most once, and exactly when
    it is in the index with that document, the document is in scope, its
    name has no case of its own in the switch and is in none of the three
    parts of the role catalog (lines 219-226). *)
Theorem role_reported_iff_unknown role f :
  occurrences (NotValidRole f role)
    (diagnostics (Run order Sprintf IsReachable IsHTTPLink allLocalRefs_Get inp))
    ≤ 1 ∧
  (NotValidRole f role ∈
     diagnostics (Run order Sprintf IsReachable IsHTTPLink allLocalRefs_Get inp)
   ↔ allRoleTargets inp !! role = Some f ∧ inScope inp f = true ∧
     builtinName (RstRole.Name role) = false ∧
     RoleMap.Roles (rstSpecRoles inp) !! RstRole.Name role = None ∧
     (RstRole.Name role ∉ RoleMap.RawRoles (rstSpecRoles inp)) ∧
     (RstRole.Name role ∉ RoleMap.RstObjects (rstSpecRoles inp))).
Proof.
  rewrite occurrences_elem_of, (occurrences_role_diag _ role f) by auto.
  destruct (allRoleTargets inp !! role) as [v|] eqn:Hr.
  - split.
    + etrans; [apply occurrences_le_length | apply step_diags_length].
    + rewrite <-occurrences_elem_of. split.
      * intros H. assert (v = f) as ->.
        { apply step_diags_of in H as [?|[?|?]]; congruence. }
        by apply step_NotValidRole in H.
      * intros ([= ->] & H). by apply step_NotValidRole.
  - split; [lia|]. split; [done | by intros [[=] _]].
Qed.

(** The URL of a templated role is reported as not valid at most once, and
    exactly when the role is in the index with that document, the document
    is in scope, the name of the role has a format in the catalog, the URL
    is the format applied to the target, and the probe of the URL failed
    with that response (lines 228-243). *)
Theorem url_reported_iff_unreachable role f url resp :
  occurrences (UrlNotValid f url role resp)
    (diagnostics (Run order Sprintf IsReachable IsHTTPLink allLocalRefs_Get inp))
    ≤ 1 ∧
  (UrlNotValid f url role resp ∈
     diagnostics (Run order Sprintf IsReachable IsHTTPLink allLocalRefs_Get inp)
   ↔ allRoleTargets inp !! role = Some f ∧ inScope inp f = true ∧
     builtinName (RstRole.Name role) = false ∧
     ∃ format,
       RoleMap.Roles (rstSpecRoles inp) !! RstRole.Name role = Some format ∧
       url = Sprintf format (RstRole.Target role) ∧
       IsReachable url = (resp, false)).
Proof.
  rewrite occurrences_elem_of, occurrences_url_diag.
  destruct (allRoleTargets inp !! role) as [v|] eqn:Hr.
  - split.
    + etrans; [apply occurrences_le_length|].
      apply job_diags_length, step_jobs_length.
    + rewrite <-occurrences_elem_of, role_job_diags. split.
      * intros (Hs & Hb & format & Hf & Hok & [= -> -> ->]).
        repeat split; [done..|]. exists format. repeat split; [done|].
        by destruct (IsReachable _) as [??]; simplify_eq/=.
      * intros ([= ->] & Hs & Hb & format & Hf & -> & Hok).
        repeat split; [done..|]. exists format. by rewrite Hok.
  - split; [lia|]. split; [done | by intros [[=] _]].
Qed.

(** A link is reported as not valid at most once, and exactly when it is a
    key of the link map the constants loop leaves, with that document, the
    document is in scope and the probe of the link failed with that
    response (lines 247-267). *)
Theorem link_reported_iff_unreachable f link resp :
  occurrences (LinkNotValid f link resp)
    (diagnostics (Run order Sprintf IsReachable IsHTTPLink allLocalRefs_Get inp))
    ≤ 1 ∧
  (LinkNotValid f link resp ∈
     diagnostics (Run order Sprintf IsReachable IsHTTPLink allLocalRefs_Get inp)
   ↔ (constantsLoop order IsHTTPLink inp).2 !! link = Some f ∧
     inScope inp f = true ∧ IsReachable link = (resp, false)).
Proof.
  rewrite occurrences_elem_of, occurrences_link_diag.
  destruct (links !! link) as [v|] eqn:Hr.
  - split.
    + etrans; [apply occurrences_le_length|].
      apply job_diags_length. unfold linkStep. case_match; simpl; lia.
    + rewrite <-occurrences_elem_of, link_job_diags. split.
      * intros (Hs & Hok & [= -> ->]). repeat split; [done|].
        by destruct (IsReachable _) as [??]; simplify_eq/=.
      * intros ([= ->] & Hs & Hok). by rewrite Hok.
  - split; [lia|]. split; [done | by intros [[=] _]].
Qed.

(** *** The probes of a run *)

(** A URL is probed exactly when it is the format of a catalogued role
    applied to the target of a role in scope whose name has no case of its
    own, or a key of the link map whose document is in scope: nothing else
    is ever sent to [utils.IsReachable], and nothing of these is left
    out. *)
Theorem probed_iff_scheduled url :
  url ∈ probes (Run order Sprintf IsReachable IsHTTPLink allLocalRefs_Get inp)
  ↔ (∃ role f format,
       allRoleTargets inp !! role = Some f ∧ inScope inp f = true ∧
       builtinName (RstRole.Name role) = false ∧
       RoleMap.Roles (rstSpecRoles inp) !! RstRole.Name role = Some format ∧
       url = Sprintf format (RstRole.Target role)) ∨
    (∃ f, (constantsLoop order IsHTTPLink inp).2 !! url = Some f ∧
          inScope inp f = true).
Proof.
  rewrite probes_parts, elem_of_app, !elem_of_concat. split.
  - intros [(l & Hu & ([role f] & -> & He)%list_elem_of_fmap)
           |(l & Hu & ([link f] & -> & He)%list_elem_of_fmap)];
      apply elem_of_range in He;
      apply elem_of_concat in Hu as (p & Hu & (j & -> & Hj)%list_elem_of_fmap).
    + apply step_jobs in Hj as (Hs & Hb & format & Hf & ->).
      apply list_elem_of_singleton in Hu as ->. left. eauto 10.
    + apply linkStep_jobs in Hj as (Hs & ->).
      apply list_elem_of_singleton in Hu as ->. right. eauto.
  - intros [(role & f & format & Hr & Hs & Hb & Hf & ->)|(f & Hl & Hs)].
    + left. eexists. split; [|apply (list_elem_of_fmap_2 _ _ (role, f));
                               by apply elem_of_range].
      apply elem_of_concat. eexists. split; [|apply list_elem_of_fmap_2,
                               step_jobs; eauto 6].
      apply list_elem_of_here.
    + right. eexists. split; [|apply (list_elem_of_fmap_2 _ _ (url, f));
                               by apply elem_of_range].
      apply elem_of_concat. eexists. split; [|by apply list_elem_of_fmap_2,
                               linkStep_jobs].
      apply list_elem_of_here.
Qed.

(** *** The outcome of a run (lines 297-305) *)



(** *** The link map left by the constants loop (lines 161-164) *)

Lemma foldl_constantStep_links
    (l : list (RstConstant.t * string)) st link :
  is_Some ((foldl (constantStep IsHTTPLink inp) st l).2 !! link) ↔
    is_Some (st.2 !! link) ∨
    ∃ con f, (con, f) ∈ l ∧
      link = default EmptyString (Constants inp !! f) +:+ RstConstant.Name con ∧
      IsHTTPLink {| RstConstant.Target := link;
                    RstConstant.Name := RstConstant.Name con |} = true.
Proof.
  revert st. induction l as [|[con f] l IH]; intros st; cbn [foldl].
  - split; [by left | intros [?|(? & ? & ?%elem_of_nil & _)]; done].
  - rewrite IH. unfold constantStep; simpl.
    destruct (IsHTTPLink _) eqn:Ht; simpl.
    + rewrite lookup_insert_is_Some. split.
      * intros [[<-|[_ ?]]|(c & g & Hin & ? & ?)].
        -- right. exists con, f. split; [apply list_elem_of_here | done].
        -- by left.
        -- right. exists c, g. split; [by apply list_elem_of_further | done].
      * intros [?|(c & g & [[= -> ->]|Hin]%elem_of_cons & Hl & Hi)].
        -- destruct (decide (default EmptyString (Constants inp !! f)
                              +:+ RstConstant.Name con = link)); auto.
        -- left. by left.
        -- right. eauto.
    + split.
      * intros [?|(c & g & Hin & ? & ?)]; [by left|].
        right. exists c, g. split; [by apply list_elem_of_further | done].
      * intros [?|(c & g & [[= -> ->]|Hin]%elem_of_cons & -> & Hi)];
          [by left | congruence | right; eauto].
Qed.

(** The keys of the link map after the constants loop are the gathered
    links and, for every constant for which the test on line 162 holds, the
    text built on line 161: the value configured under the name of the
    document followed by the name of the constant.  No gathered link is
    lost, and whatever the iteration order the keys are the same. *)
Theorem links_after_constants link :
  is_Some ((constantsLoop order IsHTTPLink inp).2 !! link) ↔
    is_Some (allHTTPLinks inp !! link) ∨
    ∃ con f, allConstants inp !! con = Some f ∧
      link = default EmptyString (Constants inp !! f) +:+ RstConstant.Name con ∧
      IsHTTPLink {| RstConstant.Target := link;
                    RstConstant.Name := RstConstant.Name con |} = true.
Proof.
  unfold constantsLoop. rewrite foldl_constantStep_links. simpl.
  by setoid_rewrite elem_of_range.
Qed.

(** *** How much a run can report and probe *)

Lemma length_concat_le {A B} (f : A → list B) (l : list A) :
  (∀ x, length (f x) ≤ 1) → length (concat (f <$> l)) ≤ length l.
Proof.
  intros Hf. induction l as [|x l IH]; [done|].
  rewrite fmap_cons, concat_cons, length_app. specialize (Hf x). simpl. lia.
Qed.

Lemma length_range `{Countable K} {V} (m : gmap K V) :
  length (range order m) = size m.
Proof. by rewrite range_perm, length_map_to_list. Qed.

(** A role is reported by the switch or puts a closure on the work stack,
    never both, and never more than one of either. *)
Lemma step_one_outcome e : length (step e).1 + length (step e).2 ≤ 1.
Proof. destruct e as [role f]. step_cases role; simpl; lia. Qed.

(** A run reports at most one diagnostic for each gathered constant, each
    role of the index and each key of the link map, and it makes at most
    one probe for each role and each key of the link map. *)
Theorem run_is_bounded :
  length (diagnostics
            (Run order Sprintf IsReachable IsHTTPLink allLocalRefs_Get inp))
    ≤ size (allConstants inp) + size (allRoleTargets inp)
      + size (constantsLoop order IsHTTPLink inp).2 ∧
  length (probes
            (Run order Sprintf IsReachable IsHTTPLink allLocalRefs_Get inp))
    ≤ size (allRoleTargets inp) + size (constantsLoop order IsHTTPLink inp).2.
Proof.
  assert (∀ jobs : list Job,
            length (concat (jobProbes <$> jobs)) ≤ length jobs) as Hp.
  { intros jobs. apply length_concat_le. intros j. destruct j; simpl; lia. }
  assert (∀ jobs : list Job,
            length (concat (jobDiags IsReachable <$> jobs)) ≤ length jobs)
    as Hd.
  { intros jobs. apply length_concat_le. intros j.
    destruct j; simpl; repeat case_match; simpl; lia. }
  assert (∀ e, length (linkStep inp ∅ e) ≤ 1) as Hl.
  { intros e. unfold linkStep. case_match; simpl; lia. }
  split.
  - rewrite diagnostics_parts, !length_app.
    rewrite <-(length_range (allConstants inp)),
      <-(length_range (allRoleTargets inp)), <-(length_range links).
    assert (length (concat (constantDiag inp <$> range order (allConstants inp)))
            ≤ length (range order (allConstants inp))) as H1.
    { apply length_concat_le. intros e. unfold constantDiag.
      case_match; simpl; lia. }
    assert (length (concat ((λ e, concat (jobDiags IsReachable
                                            <$> linkStep inp ∅ e))
                              <$> range order links))
            ≤ length (range order links)) as H3.
    { apply length_concat_le. intros e. etrans; [apply Hd | apply Hl]. }
    enough (length (concat ((λ e, (step e).1)
                              <$> range order (allRoleTargets inp)))
            + length (concat ((λ e, concat (jobDiags IsReachable <$> (step e).2))
                                <$> range order (allRoleTargets inp)))
            ≤ length (range order (allRoleTargets inp))) by lia.
    generalize (range order (allRoleTargets inp)). intros l.
    induction l as [|e l IH]; [done|].
    rewrite !fmap_cons, !concat_cons, !length_app.
    pose proof (step_one_outcome e). pose proof (Hd (step e).2). simpl. lia.
  - rewrite probes_parts, length_app.
    rewrite <-(length_range (allRoleTargets inp)), <-(length_range links).
    apply Nat.add_le_mono; apply length_concat_le; intros e;
      (etrans; [apply Hp|]).
    + apply step_jobs_length.
    + apply Hl.
Qed.

End Outcome.

(** ** Orders: of the iteration over the maps, of the closures in the pool *)

Lemma concat_fmap_perm {A B} (f : A → list B) (l1 l2 : list A) :
  l1 ≡ₚ l2 → concat (f <$> l1) ≡ₚ concat (f <$> l2).
Proof.
  induction 1 as [|x l1 l2 _ IH|x y l|l1 l2 l3 _ IH1 _ IH2];
    rewrite ?fmap_cons, ?concat_cons.
  - done.
  - by rewrite IH.
  - rewrite !app_assoc. f_equiv. apply Permutation_app_comm.
  - by rewrite IH1.
Qed.

Lemma range_order_perm (o1 o2 : MapRange) `{Countable K} {V} (m : gmap K V) :
  range o1 m ≡ₚ range o2 m.
Proof. by rewrite !range_perm. Qed.

Section Orders.

Variable Sprintf : string → string → string.
Variable IsReachable : string → string * bool.
Variable IsHTTPLink : RstConstant.t → bool.
Variable allLocalRefs_Get : RstRole.t → bool.
Variable inp : Inputs.

(** The diagnostics of the planning loops and the closures of the roles
    are the same, up to their order, whatever the order in which the two
    maps are iterated. *)
Theorem planning_order_independent (o1 o2 : MapRange) :
  planDiags (plan o1 Sprintf IsHTTPLink allLocalRefs_Get inp) ≡ₚ
  planDiags (plan o2 Sprintf IsHTTPLink allLocalRefs_Get inp) ∧
  (rolesLoop o1 Sprintf allLocalRefs_Get inp ∅).2 ≡ₚ
  (rolesLoop o2 Sprintf allLocalRefs_Get inp ∅).2.
Proof.
  unfold plan; cbn [planDiags]. rewrite !rolesLoop_spec, !constantsLoop_diags.
  cbn [fst snd]. split; [f_equiv|]; apply concat_fmap_perm, range_order_perm.
Qed.



(** The claimed-URL map while the closures run: a key is claimed by the
    closures that have run or was there before, always with [true]. *)
Lemma checkedUrls_foldl (jobs : list Job) (st : Exec) (k : Key) :
  checkedUrls (foldl (runJob IsReachable) st jobs) !! k =
    if decide (k ∈ omap jobKey jobs) then Some true
    else checkedUrls st !! k.
Proof.
  revert st. induction jobs as [|j jobs IH]; intros st; cbn [foldl].
  - rewrite decide_False; [done | apply not_elem_of_nil].
  - rewrite IH. clear IH.
    assert (∀ k0 (m : gmap Key bool), (if decide (k ∈ omap jobKey jobs) then Some true
                     else <[k0 := true]> m !! k)
                    = if decide (k ∈ k0 :: omap jobKey jobs) then Some true
                      else m !! k) as Hins.
    { intros k0 m. destruct (decide (k = k0)) as [->|Hne].
      - rewrite lookup_insert_eq.
        rewrite (decide_True (P := k0 ∈ k0 :: _)) by apply list_elem_of_here.
        by case_decide.
      - rewrite lookup_insert_ne by done.
        destruct (decide (k ∈ omap jobKey jobs)) as [Hin|Hin].
        + rewrite decide_True; [done | by apply list_elem_of_further].
        + rewrite decide_False; [done|]. by intros [?|?]%elem_of_cons. }
    destruct j; [apply Hins | apply Hins | done].
Qed.

(** After the pool has run, the claimed-URL map holds exactly the keys of
    the closures of the work stack, each with [true]. *)
Theorem claimed_iff_ran (p : Plan) (k : Key) :
  checkedUrls (runPool IsReachable p) !! k =
    if decide (k ∈ omap jobKey (workStack p)) then Some true else None.
Proof. unfold runPool. by rewrite checkedUrls_foldl. Qed.

(** The order in which the workers take the closures does not matter: two
    work stacks with the same closures leave the same claimed-URL map and,
    up to their order, the same probes and the same diagnostics. *)
Theorem pool_order_independent (p p' : Plan) :
  planDiags p = planDiags p' → workStack p ≡ₚ workStack p' →
  checkedUrls (runPool IsReachable p) = checkedUrls (runPool IsReachable p') ∧
  probes (runPool IsReachable p) ≡ₚ probes (runPool IsReachable p') ∧
  diagnostics (runPool IsReachable p) ≡ₚ diagnostics (runPool IsReachable p').
Proof.
  intros Hd Hw. split; [|split].
  - apply map_eq. intros k. unfold runPool. rewrite !checkedUrls_foldl.
    cbn [checkedUrls].
    pose proof (elem_of_Permutation_proper k _ _
                  (omap_Permutation jobKey _ _ Hw)) as Hk.
    destruct (decide (k ∈ omap jobKey (workStack p))) as [Hin|Hin].
    + rewrite decide_True; [done | by apply Hk].
    + rewrite decide_False; [done | by rewrite <-Hk].
  - rewrite (runPool_spec IsReachable p), (runPool_spec IsReachable p').
    cbn [probes]. by apply concat_fmap_perm.
  - rewrite (runPool_spec IsReachable p), (runPool_spec IsReachable p').
    cbn [diagnostics]. rewrite Hd. apply Permutation_app; [done|].
    by apply concat_fmap_perm.
Qed.

End Orders.

(** ** The properties above on given inputs *)

Lemma contains_monotone_witness :
  contains ["source/tutorial/install.txt"] ("tutorial/" +:+ "install" +:+ ".txt")
    = true ∧
  contains (["README.rst"] ++ ["source/tutorial/install.txt"] ++ ["conf.py"])
    "install" = true.
Proof.
  split; [reflexivity|].
  apply (contains_monotone ["source/tutorial/install.txt"] ["README.rst"]
           ["conf.py"] "install" "tutorial/" ".txt").
  reflexivity.
Defined.

Lemma empty_changeset_covers_corpus_witness :
  changes Examples.docInputs = [] ∧
  Examples.indexFile ∈ files Examples.docInputs ∧
  inScope Examples.docInputs Examples.indexFile = true.
Proof.
  split; [reflexivity|].
  assert (Examples.indexFile ∈ files Examples.docInputs) as H
    by apply list_elem_of_here.
  split; [exact H|].
  exact (empty_changeset_covers_corpus Examples.docInputs Examples.indexFile
           eq_refl H).
Defined.

Lemma domainOf_prefix_witness :
  strings.Contains "https://docs.mongodb.com/drivers/go/current/" "objects.inv"
    = false ∧
  intersphinx.domainOf
    ("https://docs.mongodb.com/drivers/go/current/" +:+ "objects.inv" +:+ EmptyString)
    = "https://docs.mongodb.com/drivers/go/current/".
Proof.
  split; [reflexivity|].
  apply (proj2 (proj2 (domainOf_prefix
                         "https://docs.mongodb.com/drivers/go/current/"))).
  reflexivity.
Defined.


Lemma pool_order_independent_witness :
  planDiags stackAB = planDiags stackBA ∧
  workStack stackAB ≡ₚ workStack stackBA ∧
  checkedUrls (runPool (λ _, ("404", false)) stackAB)
    = checkedUrls (runPool (λ _, ("404", false)) stackBA) ∧
  probes (runPool (λ _, ("404", false)) stackAB) ≡ₚ
  probes (runPool (λ _, ("404", false)) stackBA) ∧
  diagnostics (runPool (λ _, ("404", false)) stackAB) ≡ₚ
  diagnostics (runPool (λ _, ("404", false)) stackBA).
Proof.
  assert (workStack stackAB ≡ₚ workStack stackBA) as H by apply perm_swap.
  split; [reflexivity|]. split; [exact H|].
  exact (pool_order_independent (λ _, ("404", false)) stackAB stackBA eq_refl H).
Defined.
